(** * Lazy evaluation in TypeScript: a shallow embedding

    The repository represents a lazy value as a zero-argument closure
    [type Lazy<T> = () => T] and builds on it [lazify], [lazyToGreedy],
    [lazyQuicksort] (src/index.ts) and the combinators [mapLazy],
    [bindLazy], [applyLazy] (the later snippets).

    A JavaScript closure may read and write mutable state of the host
    program when it is called, and it may throw.  What the combinators force,
    and when, is only observable through such effects, so closures are
    embedded as computations in a state-and-exception monad over an
    arbitrary world [W] and arbitrary thrown values [E]. *)

From Stdlib Require Import List Arith Lia Bool QArith Lqa Permutation Sorted.
From Equations Require Import Equations.
Import ListNotations.
Close Scope Q_scope.

Set Implicit Arguments.

(** ** Outcomes and the monad of effects *)

(** What JavaScript throws: a [TypeError] of the runtime (calling
    [undefined]) or a value thrown by the host program. *)
Inductive exn (E : Type) : Type :=
| TypeError
| Thrown (e : E).
Arguments TypeError {E}.
Arguments Thrown {E} e.

(** How a call ends: it returns, it throws, or it does not end at all.  A
    closure of the host program that loops forever is one whose outcome is
    [Diverges]; the embedding of the one recursive function of the library
    reports [Diverges] when its recursion bound is reached. *)
Inductive outcome (E A : Type) : Type :=
| Ret (a : A)
| Throw (e : exn E)
| Diverges.
Arguments Ret {E A} a.
Arguments Throw {E A} e.
Arguments Diverges {E A}.

Definition M (W E A : Type) : Type := W -> outcome E A * W.

Definition ret {W E A} (a : A) : M W E A := fun w => (Ret a, w).

Definition throw {W E A} (e : exn E) : M W E A := fun w => (Throw e, w).

Definition diverge {W E A} : M W E A := fun w => (Diverges, w).

Definition bind {W E A B} (m : M W E A) (k : A -> M W E B) : M W E B :=
  fun w =>
    match m w with
    | (Ret a, w') => k a w'
    | (Throw e, w') => (Throw e, w')
    | (Diverges, w') => (Diverges, w')
    end.

Notation "x <- m ;; k" := (bind m (fun x => k))
  (at level 61, m at next level, right associativity).

(** [Array.prototype.map] with an effectful callback: the callback runs on
    the elements from left to right and the first failure aborts. *)
Fixpoint mapM {W E A B} (f : A -> M W E B) (l : list A) : M W E (list B) :=
  match l with
  | [] => ret []
  | a :: l' => b <- f a ;; bs <- mapM f l' ;; ret (b :: bs)
  end.

(** [Array.prototype.filter] with an effectful callback. *)
Fixpoint filterM {W E A} (p : A -> M W E bool) (l : list A) : M W E (list A) :=
  match l with
  | [] => ret []
  | a :: l' =>
      keep <- p a ;; rest <- filterM p l' ;;
      ret (if keep then a :: rest else rest)
  end.

(** ** Numbers

    A JavaScript number is seen through the two tests the sort applies to
    it, [n <= 0] and [n > 0]: it is [NaN], one of the two infinities, or
    finite.  Finite values are rationals (every finite double is one).
    The machine rounds the difference of two finite doubles, but the
    rounded difference has the sign of the exact one, and the sign is all
    the two tests read. *)
Inductive number : Type :=
| NaN
| NegInf
| Fin (q : Q)
| PosInf.

(** [a - b] *)
Definition sub (a b : number) : number :=
  match a, b with
  | NaN, _ | _, NaN => NaN
  | PosInf, PosInf | NegInf, NegInf => NaN
  | PosInf, _ | _, NegInf => PosInf
  | NegInf, _ | _, PosInf => NegInf
  | Fin p, Fin q => Fin (p - q)%Q
  end.

(** [n <= 0] *)
Definition le0 (n : number) : bool :=
  match n with
  | NaN | PosInf => false
  | NegInf => true
  | Fin q => Qle_bool q 0%Q
  end.

(** [n > 0] *)
Definition gt0 (n : number) : bool :=
  match n with
  | NaN | NegInf => false
  | PosInf => true
  | Fin q => negb (Qle_bool q 0%Q)
  end.

Definition finite (n : number) : Prop :=
  match n with Fin _ => True | _ => False end.

(** [Number(b)], the coercion [-] applies to a boolean operand. *)
Definition ofBool (b : bool) : number := Fin (if b then 1%Q else 0%Q).

(** What the example comparator computes on two forced elements, at an
    element type with its coercion to a number. *)
Definition difference {T : Type} (toNumber : T -> number) (a b : T) : number :=
  sub (toNumber a) (toNumber b).

Definition finiteNumber {T : Type} (toNumber : T -> number) (a : T) : Prop :=
  finite (toNumber a).

(** ** The library (src/index.ts) *)

Section Library.
Context {W E : Type}.

(** [type Lazy<T> = () => T] *)
Definition Lazy (T : Type) : Type := unit -> M W E T.

(** Calling a lazy value, [l()]. *)
Definition force {T} (l : Lazy T) : M W E T := l tt.

(** [const lazify = (val) => (() => val)] *)
Definition lazify {T} (val : T) : Lazy T := fun _ => ret val.

(** [type LazyArray<T> = Lazy<Lazy<T>[]>] *)
Definition LazyArray (T : Type) : Type := Lazy (list (Lazy T)).

(** [lazify(arr.map(l => lazify(l)))] *)
Definition lazyToGreedy {T} (arr : list T) : LazyArray T :=
  lazify (map (fun l => lazify l) arr).

(** The value [undefined] at type [Lazy<T>]: all the type lets a program
    do with it is call it, and calling [undefined] throws a [TypeError]. *)
Definition undefined {T} : Lazy T := fun _ => throw TypeError.

(** [const [x, ...xs] = a]: on an empty array [x] is [undefined] and
    [xs] is empty. *)
Definition destructure {T} (a : list (Lazy T)) : Lazy T * list (Lazy T) :=
  match a with
  | [] => (undefined, [])
  | x :: xs => (x, xs)
  end.

(** The type of [comparator]: calling it returns a lazy number, and both
    the call and the forcing of its result may have effects. *)
Definition Comparator (T : Type) : Type :=
  Lazy T -> Lazy T -> M W E (Lazy number).

(** The callbacks of the two [filter] calls,
    [(a) => comparator(a, x)() <= 0] and [(a) => comparator(a, x)() > 0]:
    the comparator is called on [a] and the pivot, its result is forced at
    once and tested. *)
Definition pivotTest {T} (comparator : Comparator T)
    (test : number -> bool) (x a : Lazy T) : M W E bool :=
  c <- comparator a x ;; n <- force c ;; ret (test n).

(** [lazyQuicksort], statement by statement.  [fuel] bounds the depth of
    the recursion. *)
Fixpoint lazyQuicksort {T} (fuel : nat) (arr : LazyArray T)
    (comparator : Comparator T) : M W E (LazyArray T) :=
  match fuel with
  | O => diverge
  | S fuel' =>
      a0 <- force arr ;;
      if Nat.eqb (length a0) 0 then ret arr else
      a1 <- force arr ;;
      let (x, xs) := destructure a1 in
      smaller <- filterM (pivotTest comparator le0 x) xs ;;
      smallerSorted <- lazyQuicksort fuel' (lazify smaller) comparator ;;
      bigger <- filterM (pivotTest comparator gt0 x) xs ;;
      biggerSorted <- lazyQuicksort fuel' (lazify bigger) comparator ;;
      s <- force smallerSorted ;;
      b <- force biggerSorted ;;
      ret (lazify (s ++ x :: b))
  end.

(** [arr().map(l => l())], the expression the programs use to collapse a
    lazy array into a greedy one. *)
Definition collapse {T} (arr : LazyArray T) : M W E (list T) :=
  a <- force arr ;; mapM force a.

(** The comparator of the example, [(a, b) => () => a() - b()], at an
    element type with its coercion to a number. *)
Definition subtraction {T} (toNumber : T -> number) : Comparator T :=
  fun a b => ret (fun _ => va <- force a ;; vb <- force b ;;
                           ret (sub (toNumber va) (toNumber vb))).
End Library.

(** ** The combinators on lazy values (second snippet) *)

Module Values.
Section Combinators.
Context {W E : Type}.

(** [(val, mapper) => lazify(mapper(val()))].  JavaScript evaluates the
    argument of [lazify] before calling it. *)
Definition mapLazy {T U} (val : @Lazy W E T) (mapper : T -> M W E U)
  : M W E (@Lazy W E U) :=
  v <- force val ;; u <- mapper v ;; ret (lazify u).

(** [(val, binder) => binder(val())] *)
Definition bindLazy {T U} (val : @Lazy W E T)
    (binder : T -> M W E (@Lazy W E U)) : M W E (@Lazy W E U) :=
  v <- force val ;; binder v.

(** [(val, func) => lazify(func()(val()))]: the callee [func()] is
    evaluated first, then the argument [val()], then the call. *)
Definition applyLazy {T U} (val : @Lazy W E T)
    (func : @Lazy W E (T -> M W E U)) : M W E (@Lazy W E U) :=
  f <- force func ;; v <- force val ;; u <- f v ;; ret (lazify u).
End Combinators.
End Values.

(** ** The map on lazy arrays (third snippet) *)

Module Arrays.
Section Combinators.
Context {W E : Type}.

(** [(arr, mapper) => lazify(arr().map(l => lazify(mapper(l()))))] *)
Definition mapLazy {T U} (arr : @LazyArray W E T) (mapper : T -> M W E U)
  : M W E (@LazyArray W E U) :=
  a <- force arr ;;
  r <- mapM (fun l => v <- force l ;; u <- mapper v ;; ret (lazify u)) a ;;
  ret (lazify r).
End Combinators.
End Arrays.

(** ** Reference functions on plain lists *)

(** The comparisons a sort spends on a list of [n + 1] elements: [2 * n] at
    this level, plus those of the two recursive calls. *)
Equations? comparisons {A : Type} (decide : A -> A -> number) (l : list A)
  : nat by wf (length l) lt :=
  comparisons decide [] := 0;
  comparisons decide (x :: xs) :=
    2 * length xs
    + comparisons decide (filter (fun a => le0 (decide a x)) xs)
    + comparisons decide (filter (fun a => gt0 (decide a x)) xs).
Proof.
  all: simpl; apply Nat.lt_succ_r, filter_length_le.
Qed.

(** The sort on plain values that [lazyQuicksort] performs behind the
    closures when the comparator decides by [decide]. *)
Equations? quicksort {A : Type} (decide : A -> A -> number) (l : list A)
  : list A by wf (length l) lt :=
  quicksort decide [] := [];
  quicksort decide (x :: xs) :=
    quicksort decide (filter (fun a => le0 (decide a x)) xs)
    ++ x :: quicksort decide (filter (fun a => gt0 (decide a x)) xs).
Proof.
  all: simpl; apply Nat.lt_succ_r, filter_length_le.
Qed.

(** ** Running the example program and observing forces *)

Section Programs.
Context {W E : Type}.

(** The three closing lines of src/index.ts at any array and comparator:
    [lazyToGreedy], [lazyQuicksort], then the collapse that is logged. *)
Definition sortAndCollapse {T} (fuel : nat) (xs : list T)
    (comparator : @Comparator W E T) : M W E (list T) :=
  let unsortedArr := lazyToGreedy xs in
  sorted <- lazyQuicksort fuel unsortedArr comparator ;;
  collapse sorted.

(** The world after a lazy value was forced [k] times in a row, whatever
    each forcing returned or threw. *)
Fixpoint forcings {T} (k : nat) (l : @Lazy W E T) (w : W) : W :=
  match k with
  | O => w
  | S k' => forcings k' l (snd (force l w))
  end.

(** A lazy value that yields [v] and has no effect, as [lazify v] does. *)
Definition yields {T} (l : @Lazy W E T) (v : T) : Prop :=
  forall w, force l w = (Ret v, w).

(** On arguments taken among [elements], the comparator never touches what
    [obs] observes of the world, neither when it is called nor when its
    result is forced. *)
Definition quiet {T} (elements : @Lazy W E T -> Prop) (obs : W -> nat)
    (comparator : @Comparator W E T) : Prop :=
  forall a b w,
    elements a -> elements b ->
    match comparator a b w with
    | (Ret c, w1) => obs w1 = obs w /\ obs (snd (force c w1)) = obs w
    | (_, w1) => obs w1 = obs w
    end.

(** On arguments taken among [elements], every call of the comparator is
    counted once by [obs]; the call returns, and forcing its result returns
    [decide a b] uncounted. *)
Definition counted {T} (elements : @Lazy W E T -> Prop) (obs : W -> nat)
    (decide : Lazy T -> Lazy T -> number)
    (comparator : @Comparator W E T) : Prop :=
  forall a b w,
    elements a -> elements b ->
    exists c w1 w2,
      comparator a b w = (Ret c, w1) /\ obs w1 = S (obs w) /\
      force c w1 = (Ret (decide a b), w2) /\ obs w2 = obs w1.

(** On arguments taken among [elements], the comparator and the lazy
    number it returns terminate. *)
Definition terminating {T} (elements : @Lazy W E T -> Prop)
    (comparator : @Comparator W E T) : Prop :=
  forall a b w,
    elements a -> elements b ->
    match comparator a b w with
    | (Ret c, w1) => fst (force c w1) <> Diverges
    | (Throw _, _) => True
    | (Diverges, _) => False
    end.

(** Lines 14 to 16 of [lazyQuicksort]: what one call does once it holds
    the pivot [x] and the remainder [xs]. *)
Definition level {T} (fuel : nat) (comparator : @Comparator W E T)
    (x : Lazy T) (xs : list (Lazy T)) : M W E (@LazyArray W E T) :=
  smaller <- filterM (pivotTest comparator le0 x) xs ;;
  smallerSorted <- lazyQuicksort fuel (lazify smaller) comparator ;;
  bigger <- filterM (pivotTest comparator gt0 x) xs ;;
  biggerSorted <- lazyQuicksort fuel (lazify bigger) comparator ;;
  s <- force smallerSorted ;;
  b <- force biggerSorted ;;
  ret (lazify (s ++ x :: b)).

(** A call leaves [obs] alone and, if it returns, returns an effect-free
    lazy array. *)
Definition quietly {T} (obs : W -> nat) (m : M W E (@LazyArray W E T))
    (w : W) : Prop :=
  match m w with
  | (Ret r, w1) => obs w1 = obs w /\ exists l', yields r l'
  | (_, w1) => obs w1 = obs w
  end.

(** A call returns the array sorted by [decide] and is charged
    [comparisons] on [obs]. *)
Definition charged {T} (obs : W -> nat)
    (decide : @Lazy W E T -> @Lazy W E T -> number)
    (m : M W E (@LazyArray W E T)) (l : list (Lazy T)) (w : W) : Prop :=
  exists r w1,
    m w = (Ret r, w1) /\ yields r (quicksort decide l)
    /\ obs w1 = comparisons decide l + obs w.

(** A call ends, by returning an effect-free lazy array or by throwing. *)
Definition ends {T} (m : M W E (@LazyArray W E T)) (w : W) : Prop :=
  match m w with
  | (Ret r, _) => exists l', yields r l'
  | (Throw _, _) => True
  | (Diverges, _) => False
  end.
End Programs.

(** ** Further programs and comparator classes *)

Section MorePrograms.
Context {W E : Type}.

(** The closing lines of the third snippet at any array, comparator and
    mapper: [lazyToGreedy], [lazyQuicksort], the [mapLazy] of lazy arrays,
    then the collapse that is logged. *)
Definition sortMapCollapse {T U} (fuel : nat) (xs : list T)
    (comparator : @Comparator W E T) (mapper : T -> M W E U)
  : M W E (list U) :=
  let unsortedArr := lazyToGreedy xs in
  sorted <- lazyQuicksort fuel unsortedArr comparator ;;
  mapped <- Arrays.mapLazy sorted mapper ;;
  collapse mapped.

(** On arguments taken among [elements], a call of the comparator returns,
    and forcing its result returns [decide a b]; either may change the
    world. *)
Definition decidesOn {T} (elements : @Lazy W E T -> Prop)
    (decide : @Lazy W E T -> @Lazy W E T -> number)
    (comparator : @Comparator W E T) : Prop :=
  forall a b w,
    elements a -> elements b ->
    exists c w1 w2,
      comparator a b w = (Ret c, w1)
      /\ force c w1 = (Ret (decide a b), w2).

End MorePrograms.

(** A comparator that ranks by the values of the closures at the start of
    the world; on closures made by [lazify] this is [a() - b()]. *)
Definition differenceAtStart (a b : @Lazy nat unit nat) : number :=
  match force a 0, force b 0 with
  | (Ret u, _), (Ret v, _) =>
      sub (Fin (inject_Z (Z.of_nat u))) (Fin (inject_Z (Z.of_nat v)))
  | _, _ => NaN
  end.

(** * Probes

    Closures of a host program whose world is a counter, used to observe the
    library on concrete inputs. *)

(** A lazy value that counts its forcings. *)
Definition ticking {T : Type} (v : T) : @Lazy nat unit T :=
  fun _ n => (Ret v, S n).

(** A lazy value that throws when forced. *)
Definition failing {T : Type} : @Lazy nat unit T :=
  fun _ => throw (Thrown tt).

(** A comparator that counts its calls and ranks all elements equal. *)
Definition tallying : @Comparator nat unit nat :=
  fun a b n => (Ret (lazify (Fin 0)), S n).

(** A comparator that ranks all elements equal and touches nothing. *)
Definition indifferent : @Comparator nat unit nat :=
  fun a b => ret (lazify (Fin 0)).

Definition threeLazy : list (@Lazy nat unit nat) :=
  [lazify 3; lazify 1; lazify 2].

(** The natural numbers as JavaScript numbers. *)
Definition natNumber (n : nat) : number := Fin (inject_Z (Z.of_nat n)).

(** The comparator of the example, [(a, b) => () => a() - b()], made to
    count its calls. *)
Definition tallyingSubtraction : @Comparator nat unit nat :=
  fun a b n =>
    (Ret (fun _ => va <- force a ;; vb <- force b ;;
                   ret (sub (natNumber va) (natNumber vb))), S n).

(** The closures [lazify] makes. *)
Definition lazified (a : @Lazy nat unit nat) : Prop :=
  exists v, a = lazify v.

(** The array of the example program, and one in descending order. *)
Definition fourLazy : list (@Lazy nat unit nat) :=
  [lazify 2; lazify 4; lazify 1; lazify 3].

Definition descendingLazy : list (@Lazy nat unit nat) :=
  [lazify 3; lazify 2; lazify 1].

(** * Basic facts *)

Section Facts.
Context {W E : Type}.
Implicit Types w : W.

Lemma bind_Ret {A B} (m : M W E A) (k : A -> M W E B) w a w1 :
  m w = (Ret a, w1) -> bind m k w = k a w1.
Proof. intros H. unfold bind. rewrite H. reflexivity. Qed.

Lemma bind_Throw {A B} (m : M W E A) (k : A -> M W E B) w e w1 :
  m w = (Throw e, w1) -> bind m k w = (Throw e, w1).
Proof. intros H. unfold bind. rewrite H. reflexivity. Qed.

Lemma bind_Diverges {A B} (m : M W E A) (k : A -> M W E B) w w1 :
  m w = (Diverges, w1) -> bind m k w = (Diverges, w1).
Proof. intros H. unfold bind. rewrite H. reflexivity. Qed.

Lemma yields_lazify {T} (v : T) : yields (@lazify W E T v) v.
Proof. intros w. reflexivity. Qed.

Lemma mapM_force_lazify {T} (xs : list T) w :
  mapM force (map (fun l => @lazify W E T l) xs) w = (Ret xs, w).
Proof.
  revert w. induction xs as [|x xs IH]; intros w; simpl.
  - reflexivity.
  - unfold bind. cbn [force lazify ret]. fold (@force W E T).
    rewrite IH. reflexivity.
Qed.

Lemma collapse_yields {T} (r : @LazyArray W E T) (xs : list T) w :
  yields r (map (fun l => lazify l) xs) -> collapse r w = (Ret xs, w).
Proof.
  intros H. unfold collapse. rewrite (bind_Ret _ _ _ (H w)).
  apply mapM_force_lazify.
Qed.

(** Forcing each element and wrapping its image under an effect-free [f]
    runs the same forcings, in the same order, as forcing each element. *)
Lemma mapM_force_then_map {T U} (f : T -> U) (a : list (@Lazy W E T)) :
  forall w,
    mapM (fun l => v <- force l ;; u <- ret (f v) ;; ret (@lazify W E U u))
         a w
    = match mapM force a w with
      | (Ret vs, w1) => (Ret (map (fun l => lazify l) (map f vs)), w1)
      | (Throw e, w1) => (Throw e, w1)
      | (Diverges, w1) => (Diverges, w1)
      end.
Proof.
  induction a as [|l a IH]; intros w; [reflexivity|]. cbn [mapM].
  destruct (force l w) as [[v|e|] w1] eqn:Hl.
  - assert (X : (v <- force l ;; u <- ret (f v) ;; ret (@lazify W E U u)) w
                = (Ret (lazify (f v)), w1))
      by (rewrite (bind_Ret _ _ _ Hl); reflexivity).
    rewrite (bind_Ret _ _ _ X), (bind_Ret _ _ _ Hl).
    specialize (IH w1).
    destruct (mapM force a w1) as [[vs|e|] w2] eqn:Hm.
    + rewrite (bind_Ret _ _ _ IH), (bind_Ret _ _ _ Hm). reflexivity.
    + rewrite (bind_Throw _ _ _ IH), (bind_Throw _ _ _ Hm). reflexivity.
    + rewrite (bind_Diverges _ _ _ IH), (bind_Diverges _ _ _ Hm).
      reflexivity.
  - assert (X : (v <- force l ;; u <- ret (f v) ;; ret (@lazify W E U u)) w
                = (Throw e, w1))
      by (apply bind_Throw, Hl).
    rewrite (bind_Throw _ _ _ X), (bind_Throw _ _ _ Hl). reflexivity.
  - assert (X : (v <- force l ;; u <- ret (f v) ;; ret (@lazify W E U u)) w
                = (Diverges, w1))
      by (apply bind_Diverges, Hl).
    rewrite (bind_Diverges _ _ _ X), (bind_Diverges _ _ _ Hl). reflexivity.
Qed.

Lemma Forall_pool {A} (P : A -> Prop) (p : A -> bool) (l : list A) :
  Forall P l -> Forall P (filter p l).
Proof.
  rewrite !Forall_forall. intros H a Ha. apply filter_In in Ha. apply H, Ha.
Qed.

Lemma filterM_In {A} (p : A -> M W E bool) (l : list A) :
  forall w ys w1, filterM p l w = (Ret ys, w1) ->
                  forall a, In a ys -> In a l.
Proof.
  induction l as [|a l IH]; simpl; intros w ys w1 H b Hb.
  - inversion H; subst. exact Hb.
  - unfold bind in H.
    destruct (p a w) as [[keep| |] w2]; try discriminate.
    destruct (filterM p l w2) as [[rest| |] w3] eqn:Hr; try discriminate.
    inversion H; subst. destruct keep; [destruct Hb as [Hb|Hb]|]; eauto.
Qed.

Lemma filterM_length {A} (p : A -> M W E bool) (l : list A) :
  forall w ys w1, filterM p l w = (Ret ys, w1) -> length ys <= length l.
Proof.
  induction l as [|a l IH]; simpl; intros w ys w1 H.
  - inversion H. simpl. lia.
  - unfold bind in H.
    destruct (p a w) as [[keep| |] w2]; try discriminate.
    destruct (filterM p l w2) as [[rest| |] w3] eqn:Hr; try discriminate.
    apply IH in Hr. inversion H. destruct keep; simpl; lia.
Qed.
End Facts.

(** * One level of the recursion *)

Section Level.
Context {W E T : Type}.
Implicit Types (w : W) (arr : @LazyArray W E T) (cmp : @Comparator W E T).

Lemma lazyQuicksort_S fuel arr cmp :
  lazyQuicksort (S fuel) arr cmp =
  (a0 <- force arr ;;
   if Nat.eqb (length a0) 0 then ret arr else
   a1 <- force arr ;;
   let (x, xs) := destructure a1 in level fuel cmp x xs).
Proof. reflexivity. Qed.

Lemma lazyQuicksort_nil fuel arr cmp w w1 :
  force arr w = (Ret [], w1) ->
  lazyQuicksort (S fuel) arr cmp w = (Ret arr, w1).
Proof.
  intros H. rewrite lazyQuicksort_S, (bind_Ret _ _ _ H). reflexivity.
Qed.

Lemma lazyQuicksort_cons fuel arr cmp w x xs :
  yields arr (x :: xs) ->
  lazyQuicksort (S fuel) arr cmp w = level fuel cmp x xs w.
Proof.
  intros H. rewrite lazyQuicksort_S, (bind_Ret _ _ _ (H w)). simpl.
  rewrite (bind_Ret _ _ _ (H w)). reflexivity.
Qed.
End Level.

(** * What the sort leaves untouched *)

Section Quiet.
Context {W E T : Type}.
Variable elements : @Lazy W E T -> Prop.
Variable obs : W -> nat.
Variable cmp : @Comparator W E T.
Hypothesis Hq : quiet elements obs cmp.

Lemma pivotTest_quiet test x a w :
  elements a -> elements x ->
  obs (snd (pivotTest cmp test x a w)) = obs w.
Proof.
  intros Pa Px. unfold pivotTest, bind. pose proof (Hq w Pa Px) as H.
  destruct (cmp a x w) as [[c|e|] w1]; simpl; trivial.
  destruct H as [_ H2].
  destruct (force c w1) as [[n|e|] w2]; simpl in *; trivial.
Qed.

Lemma filterM_quiet test x xs :
  (forall a, In a xs -> elements a /\ elements x) ->
  forall w, obs (snd (filterM (pivotTest cmp test x) xs w)) = obs w.
Proof.
  induction xs as [|a xs IH]; intros Hxs w; simpl; trivial.
  unfold bind. destruct (Hxs a (or_introl eq_refl)) as [Pa Px].
  pose proof (pivotTest_quiet test w Pa Px) as Ha.
  destruct (pivotTest cmp test x a w) as [[keep|e|] w1]; simpl in *; trivial.
  assert (IH' := IH (fun b Hb => Hxs b (or_intror Hb)) w1).
  destruct (filterM (pivotTest cmp test x) xs w1) as [[rest|e|] w2];
    simpl in *; congruence.
Qed.

Lemma level_quiet fuel x xs w :
  (forall a, In a xs -> elements a /\ elements x) ->
  (forall l w', Forall elements l ->
                quietly obs (lazyQuicksort fuel (lazify l) cmp) w') ->
  quietly obs (level fuel cmp x xs) w.
Proof.
  intros Hxs IH. unfold quietly, level, bind.
  assert (Hpool : forall (p : Lazy T -> M W E bool) w0 pool w1,
             filterM p xs w0 = (Ret pool, w1) -> Forall elements pool).
  { intros p w0 pool w1 F. apply Forall_forall. intros a Ha.
    apply (filterM_In _ _ _ F), Hxs in Ha. apply Ha. }
  pose proof (filterM_quiet le0 xs Hxs w) as H1.
  destruct (filterM (pivotTest cmp le0 x) xs w) as [[sm|e|] w1] eqn:F1;
    simpl in H1; trivial.
  pose proof (IH sm w1 (Hpool _ _ _ _ F1)) as H2. unfold quietly in H2.
  destruct (lazyQuicksort fuel (lazify sm) cmp w1) as [[rs|e|] w2];
    try congruence.
  destruct H2 as [H2 [ls Hs]].
  pose proof (filterM_quiet gt0 xs Hxs w2) as H3.
  destruct (filterM (pivotTest cmp gt0 x) xs w2) as [[bg|e|] w3] eqn:F3;
    simpl in H3; try congruence.
  pose proof (IH bg w3 (Hpool _ _ _ _ F3)) as H4. unfold quietly in H4.
  destruct (lazyQuicksort fuel (lazify bg) cmp w3) as [[rb|e|] w4];
    try congruence.
  destruct H4 as [H4 [lb Hb]].
  rewrite (Hs w4), (Hb w4). simpl. split; [congruence|].
  eexists. apply yields_lazify.
Qed.

Lemma lazyQuicksort_quiet fuel :
  forall arr l w, yields arr l -> Forall elements l ->
                  quietly obs (lazyQuicksort fuel arr cmp) w.
Proof.
  induction fuel as [|fuel IH]; intros arr l w Harr Pl.
  - unfold quietly. simpl. reflexivity.
  - destruct l as [|x xs].
    + unfold quietly. erewrite lazyQuicksort_nil by apply Harr.
      split; [reflexivity|]. exists []. exact Harr.
    + unfold quietly. erewrite lazyQuicksort_cons by apply Harr.
      inversion Pl as [|? ? Px Pxs]; subst.
      apply level_quiet.
      * intros a Ha. rewrite Forall_forall in Pxs. auto.
      * intros l w' Pl'. apply (IH _ l); [apply yields_lazify | exact Pl'].
Qed.

(** At the top of a call the input may be any closure: [obs] then moves
    only as the one or two forcings of the input move it. *)
Lemma lazyQuicksort_obs fuel (arr : @LazyArray W E T) w :
  (forall w' a w1, force arr w' = (Ret a, w1) -> Forall elements a) ->
  obs (snd (lazyQuicksort (S fuel) arr cmp w))
  = match force arr w with
    | (Ret a0, w1) =>
        if Nat.eqb (length a0) 0 then obs w1
        else obs (snd (force arr w1))
    | (_, w1) => obs w1
    end.
Proof.
  intros Hel. rewrite lazyQuicksort_S. unfold bind at 1.
  destruct (force arr w) as [[a0|e|] w1]; trivial.
  destruct (Nat.eqb (length a0) 0); trivial.
  unfold bind at 1. pose proof (Hel w1) as P1.
  destruct (force arr w1) as [[a1|e|] w2]; trivial.
  specialize (P1 a1 w2 eq_refl).
  assert (Hxs : forall a, In a (snd (destructure a1)) ->
                  elements a /\ elements (fst (destructure a1))).
  { destruct a1 as [|x xs]; simpl; [easy|].
    inversion P1 as [|? ? Px Pxs]; subst. rewrite Forall_forall in Pxs.
    auto. }
  destruct (destructure a1) as [x xs]. simpl in Hxs.
  assert (H : quietly obs (level fuel cmp x xs) w2).
  { apply level_quiet; [exact Hxs|]. intros l w' Pl.
    apply lazyQuicksort_quiet with (l := l);
      [apply yields_lazify | exact Pl]. }
  unfold quietly in H. simpl.
  destruct (level fuel cmp x xs w2) as [[r|e|] w3]; simpl; tauto.
Qed.
End Quiet.

(** * Counting the calls of the comparator *)

Section Counted.
Context {W E T : Type}.
Variable elements : @Lazy W E T -> Prop.
Variable obs : W -> nat.
Variable decide : @Lazy W E T -> @Lazy W E T -> number.
Variable cmp : @Comparator W E T.
Hypothesis Hc : counted elements obs decide cmp.

Lemma pivotTest_counted test x a w :
  elements a -> elements x ->
  exists w1,
    pivotTest cmp test x a w = (Ret (test (decide a x)), w1)
    /\ obs w1 = S (obs w).
Proof.
  intros Pa Px.
  destruct (Hc w Pa Px) as (c & w1 & w2 & H1 & H2 & H3 & H4).
  exists w2. unfold pivotTest.
  rewrite (bind_Ret _ _ _ H1), (bind_Ret _ _ _ H3).
  split; [reflexivity | congruence].
Qed.

Lemma filterM_counted test x xs :
  elements x -> Forall elements xs ->
  forall w, exists w1,
    filterM (pivotTest cmp test x) xs w
    = (Ret (filter (fun a => test (decide a x)) xs), w1)
    /\ obs w1 = length xs + obs w.
Proof.
  intros Px. induction 1 as [|a xs Pa Pxs IH]; intros w; simpl.
  - exists w. split; reflexivity.
  - destruct (pivotTest_counted test w Pa Px) as (w1 & H1 & H2).
    destruct (IH w1) as (w2 & H3 & H4).
    exists w2. rewrite (bind_Ret _ _ _ H1), (bind_Ret _ _ _ H3).
    split; [|lia]. unfold ret. destruct (test (decide a x)); reflexivity.
Qed.

Lemma level_counted fuel x xs w :
  elements x -> Forall elements xs ->
  (forall l w', length l <= length xs -> Forall elements l ->
                charged obs decide (lazyQuicksort fuel (lazify l) cmp) l w') ->
  charged obs decide (level fuel cmp x xs) (x :: xs) w.
Proof.
  intros Px Pxs IH. unfold charged, level.
  destruct (filterM_counted le0 Px Pxs w) as (w1 & H1 & O1).
  rewrite (bind_Ret _ _ _ H1).
  destruct (IH (filter (fun a => le0 (decide a x)) xs) w1
               (filter_length_le _ _) (Forall_pool _ Pxs))
    as (rs & w2 & H2 & Ys & O2).
  rewrite (bind_Ret _ _ _ H2).
  destruct (filterM_counted gt0 Px Pxs w2) as (w3 & H3 & O3).
  rewrite (bind_Ret _ _ _ H3).
  destruct (IH (filter (fun a => gt0 (decide a x)) xs) w3
               (filter_length_le _ _) (Forall_pool _ Pxs))
    as (rb & w4 & H4 & Yb & O4).
  rewrite (bind_Ret _ _ _ H4).
  rewrite (bind_Ret _ _ _ (Ys w4)), (bind_Ret _ _ _ (Yb w4)).
  eexists. exists w4. split; [reflexivity|]. simp quicksort comparisons.
  split; [apply yields_lazify | lia].
Qed.

Lemma lazyQuicksort_counted fuel :
  forall arr l w, yields arr l -> Forall elements l -> length l < fuel ->
                  charged obs decide (lazyQuicksort fuel arr cmp) l w.
Proof.
  induction fuel as [|fuel IH]; intros arr l w Harr Pl Hlen; [lia|].
  destruct l as [|x xs].
  - exists arr, w. erewrite lazyQuicksort_nil by apply Harr.
    simp quicksort comparisons. auto.
  - unfold charged. erewrite lazyQuicksort_cons by apply Harr.
    inversion Pl as [|? ? Px Pxs]; subst.
    apply level_counted; [exact Px | exact Pxs |]. intros l w' Hl Pl'.
    apply IH; [apply yields_lazify | exact Pl' | simpl in Hlen; lia].
Qed.
End Counted.

(** * Termination *)

Section Terminating.
Context {W E T : Type}.
Variable elements : @Lazy W E T -> Prop.
Variable cmp : @Comparator W E T.
Hypothesis Ht : terminating elements cmp.

Lemma pivotTest_terminating test x a w :
  elements a -> elements x ->
  fst (pivotTest cmp test x a w) <> Diverges.
Proof.
  intros Ha Hx. unfold pivotTest, bind. pose proof (Ht w Ha Hx) as H.
  destruct (cmp a x w) as [[c|e|] w1]; simpl; try easy.
  destruct (force c w1) as [[n|e|] w2]; simpl in *; easy.
Qed.

Lemma filterM_terminating test x xs :
  (forall a, In a xs -> elements a /\ elements x) ->
  forall w, fst (filterM (pivotTest cmp test x) xs w) <> Diverges.
Proof.
  induction xs as [|a xs IH]; intros Hxs w; simpl; [easy|].
  unfold bind.
  destruct (Hxs a (or_introl eq_refl)) as [Pa Px].
  pose proof (pivotTest_terminating test w Pa Px) as Ha.
  destruct (pivotTest cmp test x a w) as [[keep|e|] w1]; simpl in *;
    try easy.
  assert (IH' := IH (fun b Hb => Hxs b (or_intror Hb)) w1).
  destruct (filterM (pivotTest cmp test x) xs w1) as [[rest|e|] w2];
    simpl in *; easy.
Qed.

Lemma level_terminating fuel x xs w :
  (forall a, In a xs -> elements a /\ elements x) ->
  (forall l w', length l <= length xs -> Forall elements l ->
                ends (lazyQuicksort fuel (lazify l) cmp) w') ->
  ends (level fuel cmp x xs) w.
Proof.
  intros Hxs IH. unfold ends, level, bind.
  assert (Hpool : forall (p : Lazy T -> M W E bool) w0 pool w1,
             filterM p xs w0 = (Ret pool, w1) -> Forall elements pool).
  { intros p w0 pool w1 F. apply Forall_forall. intros a Ha.
    apply (filterM_In _ _ _ F), Hxs in Ha. apply Ha. }
  pose proof (filterM_terminating le0 xs Hxs w) as H1.
  destruct (filterM (pivotTest cmp le0 x) xs w) as [[sm|e|] w1] eqn:F1;
    simpl in H1; try easy.
  pose proof (IH sm w1 (filterM_length _ _ _ F1) (Hpool _ _ _ _ F1)) as H2.
  unfold ends in H2.
  destruct (lazyQuicksort fuel (lazify sm) cmp w1) as [[rs|e|] w2];
    try easy.
  destruct H2 as [ls Hs].
  pose proof (filterM_terminating gt0 xs Hxs w2) as H3.
  destruct (filterM (pivotTest cmp gt0 x) xs w2) as [[bg|e|] w3] eqn:F3;
    simpl in H3; try easy.
  pose proof (IH bg w3 (filterM_length _ _ _ F3) (Hpool _ _ _ _ F3)) as H4.
  unfold ends in H4.
  destruct (lazyQuicksort fuel (lazify bg) cmp w3) as [[rb|e|] w4];
    try easy.
  destruct H4 as [lb Hb].
  rewrite (Hs w4), (Hb w4). simpl. eexists. apply yields_lazify.
Qed.

Lemma lazyQuicksort_terminating fuel :
  forall arr l w, yields arr l -> Forall elements l -> length l < fuel ->
                  ends (lazyQuicksort fuel arr cmp) w.
Proof.
  induction fuel as [|fuel IH]; intros arr l w Harr Hel Hlen; [lia|].
  unfold ends. destruct l as [|x xs].
  - erewrite lazyQuicksort_nil by apply Harr. exists []. exact Harr.
  - erewrite lazyQuicksort_cons by apply Harr.
    inversion Hel as [|? ? Px Pxs]; subst.
    apply level_terminating.
    + intros a Ha. rewrite Forall_forall in Pxs. auto.
    + intros l w' Hl Pl.
      apply (IH _ l); [apply yields_lazify | exact Pl | simpl in Hlen; lia].
Qed.
End Terminating.

(** * The sort on plain values *)

Section Quicksort.
Context {A : Type}.
Variable decide : A -> A -> number.

Lemma quicksort_In l : forall a, In a (quicksort decide l) -> In a l.
Proof.
  funelim (quicksort decide l); intros a Ha; [easy|].
  apply in_app_or in Ha. destruct Ha as [Ha | [Ha | Ha]].
  - right. apply H in Ha. apply filter_In in Ha. tauto.
  - left. exact Ha.
  - right. apply H0 in Ha. apply filter_In in Ha. tauto.
Qed.

(** The values on which the comparator is an order: its two tests exclude
    each other, and [decide a b <= 0] is total and transitive. *)
Variable ok : A -> Prop.
Hypothesis split : forall a b,
    ok a -> ok b -> gt0 (decide a b) = negb (le0 (decide a b)).
Hypothesis total : forall a b,
    ok a -> ok b -> le0 (decide a b) = false -> le0 (decide b a) = true.
Hypothesis trans : forall a b c,
    ok a -> ok b -> ok c ->
    le0 (decide a b) = true -> le0 (decide b c) = true ->
    le0 (decide a c) = true.

Lemma pools_Permutation x xs :
  ok x -> Forall ok xs ->
  Permutation xs (filter (fun a => le0 (decide a x)) xs
                  ++ filter (fun a => gt0 (decide a x)) xs).
Proof.
  intros Hx. induction 1 as [|a xs Ha Hxs IH]; simpl; [constructor|].
  rewrite (split Ha Hx). destruct (le0 (decide a x)); simpl.
  - constructor. exact IH.
  - apply Permutation_cons_app. exact IH.
Qed.

Lemma Forall_filter (p : A -> bool) l : Forall ok l -> Forall ok (filter p l).
Proof.
  rewrite !Forall_forall. intros H a Ha. apply filter_In in Ha. apply H, Ha.
Qed.

Lemma quicksort_Permutation l :
  Forall ok l -> Permutation l (quicksort decide l).
Proof.
  funelim (quicksort decide l); intros Hok; [constructor|].
  inversion Hok as [|? ? Hx Hxs]; subst.
  apply Permutation_cons_app.
  eapply Permutation_trans; [apply (pools_Permutation Hx Hxs)|].
  apply Permutation_app; [apply H | apply H0]; apply Forall_filter, Hxs.
Qed.

Lemma quicksort_StronglySorted l :
  Forall ok l ->
  StronglySorted (fun a b => le0 (decide a b) = true) (quicksort decide l).
Proof.
  funelim (quicksort decide l); intros Hok; [constructor|].
  inversion Hok as [|? ? Hx Hxs]; subst.
  assert (Hs := H (Forall_filter _ Hxs)).
  assert (Hb := H0 (Forall_filter _ Hxs)).
  clear H H0 Heqcall.
  assert (Hsmall : forall a,
             In a (quicksort decide (filter (fun a => le0 (decide a x)) xs))
             -> ok a /\ le0 (decide a x) = true).
  { intros a Ha. apply quicksort_In, filter_In in Ha.
    rewrite Forall_forall in Hxs. split; [apply Hxs|]; apply Ha. }
  assert (Hbig : forall b,
             In b (quicksort decide (filter (fun a => gt0 (decide a x)) xs))
             -> ok b /\ le0 (decide x b) = true).
  { intros b Hb'. apply quicksort_In, filter_In in Hb'.
    rewrite Forall_forall in Hxs. destruct Hb' as [Hin Hgt].
    split; [apply Hxs, Hin|]. apply total; auto.
    rewrite (split (Hxs _ Hin) Hx) in Hgt.
    destruct (le0 (decide b x)); [discriminate | reflexivity]. }
  induction Hs as [|a s Hs IHs Ha]; simpl.
  - constructor; [exact Hb|]. apply Forall_forall. intros b Hb'.
    apply Hbig, Hb'.
  - constructor.
    + apply IHs. intros a' Ha'. apply Hsmall. right. exact Ha'.
    + apply Forall_app. split; [exact Ha|].
      destruct (Hsmall a (or_introl eq_refl)) as [Oa La].
      constructor; [exact La|]. apply Forall_forall. intros b Hb'.
      destruct (Hbig b Hb') as [Ob Lb]. apply (trans Oa Hx Ob La Lb).
Qed.
End Quicksort.

(** The subtraction comparator is an order on the values whose number is
    finite. *)
Section SubtractionOrder.
Context {T : Type}.
Variable toNumber : T -> number.

Lemma difference_split a b :
  finiteNumber toNumber a -> finiteNumber toNumber b ->
  gt0 (difference toNumber a b) = negb (le0 (difference toNumber a b)).
Proof.
  unfold finiteNumber, difference.
  destruct (toNumber a), (toNumber b); simpl; easy.
Qed.

Lemma difference_total a b :
  finiteNumber toNumber a -> finiteNumber toNumber b ->
  le0 (difference toNumber a b) = false -> le0 (difference toNumber b a) = true.
Proof.
  unfold finiteNumber, difference.
  destruct (toNumber a) as [| |p|], (toNumber b) as [| |q|]; simpl;
    try easy.
  intros _ _ H. apply Qle_bool_iff.
  destruct (Qle_bool (p - q) 0) eqn:Hpq; [discriminate|].
  assert (~ (p - q <= 0)%Q) by (rewrite <- Qle_bool_iff; congruence).
  lra.
Qed.

Lemma difference_trans a b c :
  finiteNumber toNumber a -> finiteNumber toNumber b -> finiteNumber toNumber c ->
  le0 (difference toNumber a b) = true -> le0 (difference toNumber b c) = true ->
  le0 (difference toNumber a c) = true.
Proof.
  unfold finiteNumber, difference.
  destruct (toNumber a) as [| |p|], (toNumber b) as [| |q|],
           (toNumber c) as [| |r|]; simpl; try easy.
  rewrite !Qle_bool_iff. intros _ _ _ H1 H2. lra.
Qed.
End SubtractionOrder.

(** * The example comparator on a converted array *)

Section Subtraction.
Context {W E T : Type}.
Variable toNumber : T -> number.

Local Abbreviation lazified := (map (fun l : T => @lazify W E T l)).

Lemma filterM_subtraction test (x : T) (xs : list T) :
  forall w : W,
    filterM (pivotTest (subtraction toNumber) test (lazify x))
            (lazified xs) w
    = (Ret (lazified (filter (fun a => test (difference toNumber a x)) xs)),
       w).
Proof.
  induction xs as [|a xs IH]; intros w; simpl; [reflexivity|].
  unfold bind at 1. cbn. fold (difference toNumber a x).
  rewrite (bind_Ret _ _ _ (IH w)). unfold ret.
  destruct (test (difference toNumber a x)); reflexivity.
Qed.

Lemma lazyQuicksort_subtraction fuel :
  forall (arr : @LazyArray W E T) (l : list T) (w : W),
    yields arr (lazified l) -> length l < fuel ->
    exists r,
      lazyQuicksort fuel arr (subtraction toNumber) w = (Ret r, w)
      /\ yields r (lazified (quicksort (difference toNumber) l)).
Proof.
  induction fuel as [|fuel IH]; intros arr l w Harr Hlen; [lia|].
  destruct l as [|x xs].
  - exists arr. erewrite lazyQuicksort_nil by apply Harr.
    simp quicksort. auto.
  - erewrite lazyQuicksort_cons by apply Harr. unfold level.
    rewrite (bind_Ret _ _ _ (filterM_subtraction le0 x xs w)).
    destruct (IH (lazify (lazified
                    (filter (fun a => le0 (difference toNumber a x)) xs)))
                 _ w (yields_lazify _)) as (rs & Hs & Ys).
    { pose proof (filter_length_le
                    (fun a => le0 (difference toNumber a x)) xs).
      simpl in Hlen. lia. }
    rewrite (bind_Ret _ _ _ Hs).
    rewrite (bind_Ret _ _ _ (filterM_subtraction gt0 x xs w)).
    destruct (IH (lazify (lazified
                    (filter (fun a => gt0 (difference toNumber a x)) xs)))
                 _ w (yields_lazify _)) as (rb & Hb & Yb).
    { pose proof (filter_length_le
                    (fun a => gt0 (difference toNumber a x)) xs).
      simpl in Hlen. lia. }
    rewrite (bind_Ret _ _ _ Hb).
    rewrite (bind_Ret _ _ _ (Ys w)), (bind_Ret _ _ _ (Yb w)).
    eexists. split; [reflexivity|].
    intros w'. simp quicksort. rewrite map_app. reflexivity.
Qed.

Lemma sortAndCollapse_subtraction fuel (xs : list T) (w : W) :
  length xs < fuel ->
  sortAndCollapse fuel xs (@subtraction W E T toNumber) w
  = (Ret (quicksort (difference toNumber) xs), w).
Proof.
  intros Hlen. unfold sortAndCollapse.
  destruct (lazyQuicksort_subtraction (arr := lazyToGreedy xs) xs w
              (yields_lazify _) Hlen) as (r & Hr & Yr).
  rewrite (bind_Ret _ _ _ Hr). apply collapse_yields, Yr.
Qed.
End Subtraction.

(** * The claims *)

(** ** Conversion round trip *)

(** C6.  Converting any finite array to a lazy array with [lazyToGreedy] and
    collapsing it again (forcing the outer layer, then every element) returns
    the array itself, element for element and in the same order, and leaves
    the world as it was. *)
Theorem collapse_lazyToGreedy (W E T : Type) (xs : list T) (w : W) :
  @collapse W E T (lazyToGreedy xs) w = (Ret xs, w).
Proof.
  apply collapse_yields, yields_lazify.
Qed.

(** ** Sort correctness *)

(** The array of the example program. *)
Example sorts_2413 :
  sortAndCollapse 5 [Fin 2; Fin 4; Fin 1; Fin 3]
                  (@subtraction nat unit number (fun n => n)) 0
  = (Ret [Fin 1; Fin 2; Fin 3; Fin 4], 0).
Proof. reflexivity. Qed.

(** C1.  The code loses an element where a permutation is called for.  The
    difference of two equal infinities is [NaN], which passes neither
    [<= 0] nor [> 0], so the second infinity lands in neither pool: sorting
    [[Infinity, Infinity]] with the subtraction comparator and collapsing
    returns [[Infinity]], which is no permutation of the input. *)
Theorem lazyQuicksort_loses_infinity :
  sortAndCollapse 3 [PosInf; PosInf]
                  (@subtraction nat unit number (fun n => n)) 0
  = (Ret [PosInf], 0)
  /\ ~ Permutation [PosInf; PosInf] [PosInf].
Proof.
  split; [reflexivity|].
  intros H. apply Permutation_length in H. discriminate.
Qed.

(** ** Terminal cases *)

(** C7.  Whatever the comparator is (it may count its calls in the world, or
    throw when called), a lazy array whose forcing yields the empty array is
    returned as it is, with nothing run but that one forcing; the empty array
    collapses to [[]]; a one-element array sorts to itself with the world
    untouched.  In particular an observation that every call of the
    comparator would increment is left where it was: the comparator is called
    zero times. *)
Theorem lazyQuicksort_terminal_cases (W E T : Type)
    (comparator : @Comparator W E T) (fuel : nat) (w : W) :
  (forall arr w1,
      force arr w = (Ret [], w1) ->
      lazyQuicksort (S fuel) arr comparator w = (Ret arr, w1))
  /\ sortAndCollapse (S fuel) [] comparator w = (Ret [], w)
  /\ (forall v : T,
         sortAndCollapse (S (S fuel)) [v] comparator w = (Ret [v], w))
  /\ (forall obs : W -> nat,
         (forall a b w', obs (snd (comparator a b w')) = S (obs w')) ->
         forall v : T,
           obs (snd (sortAndCollapse (S fuel) [] comparator w)) = obs w
           /\ obs (snd (sortAndCollapse (S (S fuel)) [v] comparator w))
              = obs w).
Proof.
  assert (H0 : sortAndCollapse (S fuel) [] comparator w = (Ret [], w))
    by reflexivity.
  assert (H1 : forall v : T,
             sortAndCollapse (S (S fuel)) [v] comparator w = (Ret [v], w))
    by reflexivity.
  split; [|split; [exact H0 | split; [exact H1|]]].
  - intros arr w1 H. apply lazyQuicksort_nil, H.
  - intros obs _ v. rewrite H0, H1. split; reflexivity.
Qed.

Lemma lazyQuicksort_terminal_cases_witness :
  lazyQuicksort 1 (lazyToGreedy []) tallying 0 = (Ret (lazyToGreedy []), 0)
  /\ snd (sortAndCollapse 2 [5] tallying 0) = 0.
Proof.
  pose proof (@lazyQuicksort_terminal_cases nat unit nat tallying 0 0)
    as (Hnil & _ & _ & Hobs).
  split.
  - apply Hnil. reflexivity.
  - apply (Hobs (fun n => n)). reflexivity.
Defined.

(** ** Termination *)

(** C8.  Let the input terminate whenever it is forced, let the array it
    yields when the call destructures it be shorter than the fuel, and let
    the comparator and the lazy numbers it returns terminate on the elements
    of that array.  Then [lazyQuicksort] terminates: it returns or throws,
    and never exhausts the fuel.  The pools it recurses on are filtered out
    of the remainder [xs], so they are strictly shorter than the array
    [x :: xs] of the caller. *)
Theorem lazyQuicksort_terminates (W E T : Type)
    (elements : @Lazy W E T -> Prop)
    (comparator : @Comparator W E T) (arr : @LazyArray W E T)
    (fuel : nat) (w : W) :
  terminating elements comparator ->
  (forall w', fst (force arr w') <> Diverges) ->
  (forall a0 w1 a1 w2,
      force arr w = (Ret a0, w1) -> force arr w1 = (Ret a1, w2) ->
      length a1 < fuel /\ Forall elements a1) ->
  1 < fuel ->
  fst (lazyQuicksort fuel arr comparator w) <> Diverges
  /\ (forall test x xs w' pool w1,
         filterM (pivotTest comparator test x) xs w' = (Ret pool, w1) ->
         length pool < length (x :: xs)).
Proof.
  intros Ht Harr Hlen Hfuel. split.
  - destruct fuel as [|fuel]; [lia|].
    rewrite lazyQuicksort_S. unfold bind at 1.
    pose proof (Harr w) as H0.
    destruct (force arr w) as [[a0|e|] w1]; simpl in H0; try easy.
    specialize (Hlen a0 w1).
    destruct (Nat.eqb (length a0) 0); [easy|].
    unfold bind at 1.
    pose proof (Harr w1) as H1.
    destruct (force arr w1) as [[a1|e|] w2]; simpl in H1; try easy.
    destruct (Hlen a1 w2 eq_refl eq_refl) as [L1 P1].
    assert (Hrec : forall l w', length l <= length (snd (destructure a1)) ->
                     Forall elements l ->
                     ends (lazyQuicksort fuel (lazify l) comparator) w').
    { intros l w' Hl Pl.
      apply (lazyQuicksort_terminating Ht) with (l := l);
        [apply yields_lazify | exact Pl |].
      destruct a1; simpl in *; lia. }
    assert (Hxs : forall a, In a (snd (destructure a1)) ->
                    elements a /\ elements (fst (destructure a1))).
    { destruct a1 as [|x xs]; simpl; [easy|].
      inversion P1 as [|? ? Px Pxs]; subst. rewrite Forall_forall in Pxs.
      auto. }
    destruct (destructure a1) as [x xs]. simpl in Hrec, Hxs.
    pose proof (@level_terminating _ _ _ _ _ Ht fuel x xs w2 Hxs Hrec)
      as Hlevel.
    unfold ends in Hlevel.
    destruct (level fuel comparator x xs w2) as [[r|e|] w3]; easy.
  - intros test x xs w' pool w1 H. apply filterM_length in H. simpl. lia.
Qed.

Lemma lazyQuicksort_terminates_witness :
  fst (lazyQuicksort 4 (lazyToGreedy [3; 1; 2])
         (@subtraction nat unit nat (fun n => Fin (inject_Z (Z.of_nat n)))) 0)
  <> Diverges.
Proof.
  apply (@lazyQuicksort_terminates nat unit nat
           (fun a => forall w, fst (force a w) <> Diverges)
           (subtraction (fun n => Fin (inject_Z (Z.of_nat n))))
           (lazyToGreedy [3; 1; 2]) 4 0).
  - intros a b w Ha Hb. cbv [subtraction ret force bind fst] in *.
    specialize (Ha w).
    destruct (a tt w) as [[va|e|] w1]; try easy.
    specialize (Hb w1).
    destruct (b tt w1) as [[vb|e|] w2]; easy.
  - intros w'. simpl. discriminate.
  - intros a0 w1 a1 w2 _ H. inversion H; subst. split; [simpl; lia|].
    repeat constructor; intros w; simpl; discriminate.
  - lia.
Defined.

(** ** Comparator calls *)

(** C9.  Let [obs] count the calls of the comparator, whose results on the
    closures of the array follow [decide].  Each of the two [filter] passes
    over a remainder of [n] elements calls the comparator [n] times, so a
    call on [x :: xs] spends [2 * length xs] calls at its own level, on top
    of what the two recursive calls spend on their pools; a call on [l]
    spends [comparisons decide l] in all. *)
Theorem comparator_called_twice_per_element (W E T : Type)
    (elements : @Lazy W E T -> Prop) (obs : W -> nat)
    (decide : @Lazy W E T -> @Lazy W E T -> number)
    (comparator : @Comparator W E T) :
  counted elements obs decide comparator ->
  (forall test x xs w,
      elements x -> Forall elements xs ->
      exists pool w1,
        filterM (pivotTest comparator test x) xs w = (Ret pool, w1)
        /\ obs w1 = length xs + obs w)
  /\ (forall fuel l w,
         Forall elements l -> length l < fuel ->
         exists r w1,
           lazyQuicksort fuel (lazify l) comparator w = (Ret r, w1)
           /\ obs w1 = comparisons decide l + obs w)
  /\ (forall fuel x xs w,
         Forall elements (x :: xs) -> length (x :: xs) < fuel ->
         exists r w1,
           lazyQuicksort fuel (lazify (x :: xs)) comparator w = (Ret r, w1)
           /\ obs w1
              = 2 * length xs
                + comparisons decide
                    (filter (fun a => le0 (decide a x)) xs)
                + comparisons decide
                    (filter (fun a => gt0 (decide a x)) xs)
                + obs w).
Proof.
  intros Hc.
  assert (Hall : forall fuel l w,
             Forall elements l -> length l < fuel ->
             exists r w1,
               lazyQuicksort fuel (lazify l) comparator w = (Ret r, w1)
               /\ obs w1 = comparisons decide l + obs w).
  { intros fuel l w Pl Hlen.
    destruct (lazyQuicksort_counted Hc (arr := lazify l) w
                (yields_lazify l) Pl Hlen) as (r & w1 & H & _ & O).
    exists r, w1. auto. }
  split; [|split].
  - intros test x xs w Px Pxs.
    destruct (@filterM_counted W E T elements obs decide comparator Hc
                test x xs Px Pxs w) as (w1 & H & O). eauto.
  - exact Hall.
  - intros fuel x xs w Pl Hlen.
    destruct (Hall fuel (x :: xs) w Pl Hlen) as (r & w1 & H & O).
    exists r, w1. split; [exact H|]. rewrite O. simp comparisons. lia.
Qed.

(** The comparator of the example, counting its calls, is counted on the
    closures [lazify] makes. *)
Lemma tallyingSubtraction_counted :
  counted lazified (fun n => n) differenceAtStart tallyingSubtraction.
Proof.
  intros a b w [u Hu] [v Hv]. subst.
  eexists. exists (S w), (S w). repeat split; reflexivity.
Qed.

Lemma fourLazy_lazified : Forall lazified fourLazy.
Proof.
  repeat constructor; eexists; reflexivity.
Qed.

Lemma comparator_called_twice_per_element_witness :
  exists r w1,
    lazyQuicksort 5 (lazify fourLazy) tallyingSubtraction 0 = (Ret r, w1)
    /\ w1 = comparisons differenceAtStart fourLazy + 0.
Proof.
  refine (proj1 (proj2 (@comparator_called_twice_per_element
                          nat unit nat lazified (fun n => n)
                          differenceAtStart tallyingSubtraction
                          tallyingSubtraction_counted))
                5 fourLazy 0 fourLazy_lazified _).
  simpl. lia.
Defined.

(** The array of the example program: six calls at the top, two below. *)
Example tallyingSubtraction_four :
  snd (lazyQuicksort 5 (lazify fourLazy) tallyingSubtraction 0) = 8.
Proof. reflexivity. Qed.

(** Three equal-ranked elements: four calls at the top, two below. *)
Example tallying_three :
  snd (lazyQuicksort 4 (lazify threeLazy) tallying 0) = 6.
Proof. reflexivity. Qed.

(** ** Forcings of the input *)

(** C10.  Let the comparator leave [obs] alone on the closures of the
    arrays the input yields.  If [obs] counts the forcings of the input, a
    call whose first forcing yields an empty array moves it by one, and a call
    whose first forcing yields a non-empty array moves it by two.  If forcing
    the input leaves [obs] alone as well, the whole call does: the sort itself
    forces no element, so [obs] can only move where the comparator moves
    it. *)
Theorem lazyQuicksort_forces_input_twice (W E T : Type)
    (elements : @Lazy W E T -> Prop) (obs : W -> nat)
    (comparator : @Comparator W E T) (arr : @LazyArray W E T)
    (fuel : nat) (w : W) :
  quiet elements obs comparator ->
  (forall w' a w1, force arr w' = (Ret a, w1) -> Forall elements a) ->
  ((forall w', obs (snd (force arr w')) = S (obs w')) ->
   forall a0 w1,
     force arr w = (Ret a0, w1) ->
     obs (snd (lazyQuicksort (S fuel) arr comparator w))
     = (if Nat.eqb (length a0) 0 then 1 else 2) + obs w)
  /\ ((forall w', obs (snd (force arr w')) = obs w') ->
      obs (snd (lazyQuicksort (S fuel) arr comparator w)) = obs w).
Proof.
  intros Hq Hel. split.
  - intros Hbump a0 w1 H0. rewrite (@lazyQuicksort_obs W E T elements obs comparator Hq fuel arr w Hel),
      H0.
    pose proof (Hbump w) as B0. rewrite H0 in B0. simpl in B0.
    destruct (Nat.eqb (length a0) 0); [exact B0|].
    rewrite Hbump, B0. reflexivity.
  - intros Hkeep.
    rewrite (@lazyQuicksort_obs W E T elements obs comparator Hq fuel arr w Hel).
    pose proof (Hkeep w) as K0.
    destruct (force arr w) as [[a0|e|] w1]; simpl in K0; trivial.
    destruct (Nat.eqb (length a0) 0); [exact K0|].
    rewrite Hkeep. exact K0.
Qed.

(** The comparator of the example leaves the counter alone on the closures
    [lazify] makes. *)
Lemma subtraction_quiet :
  quiet lazified (fun n => n) (@subtraction nat unit nat natNumber).
Proof.
  intros a b w [u Hu] [v Hv]. subst. simpl. auto.
Qed.

Lemma lazyQuicksort_forces_input_twice_witness :
  snd (lazyQuicksort 5 (ticking fourLazy) (subtraction natNumber) 0) = 2
  /\ snd (lazyQuicksort 3 (lazify [ticking 7; ticking 8]) indifferent 0) = 0.
Proof.
  split.
  - refine (proj1 (@lazyQuicksort_forces_input_twice
                     nat unit nat lazified (fun n => n)
                     (subtraction natNumber) (ticking fourLazy) 4 0
                     subtraction_quiet _)
                  _ fourLazy 1 _).
    + intros w' a w1 H. inversion H; subst. apply fourLazy_lazified.
    + intros w'. reflexivity.
    + reflexivity.
  - refine (proj2 (@lazyQuicksort_forces_input_twice
                     nat unit nat (fun _ => True) (fun n => n) indifferent
                     (lazify [ticking 7; ticking 8]) 2 0 _ _) _).
    + intros a b w _ _. simpl. auto.
    + intros w' a w1 H. inversion H; subst. repeat constructor.
    + intros w'. reflexivity.
Defined.

(** ** The combinators on lazy values *)

(** C5.  Let [obs] count the forcings of [val], and let the binder and the
    lazy value it returns leave [obs] alone.  The call [bindLazy val binder]
    moves [obs] by exactly one, and forcing the lazy value it returned any
    number of times moves it no further.  The call is the binder applied to
    the value forced at the call: what it returns is the very closure the
    binder returned. *)
Theorem bindLazy_forces_once (W E T U : Type) (obs : W -> nat)
    (val : @Lazy W E T) (binder : T -> M W E (@Lazy W E U)) (w : W) :
  (forall w', obs (snd (force val w')) = S (obs w')) ->
  (forall v w',
      match binder v w' with
      | (Ret r, w1) =>
          obs w1 = obs w' /\ forall w2, obs (snd (force r w2)) = obs w2
      | (_, w1) => obs w1 = obs w'
      end) ->
  obs (snd (Values.bindLazy val binder w)) = S (obs w)
  /\ (forall r w1,
         Values.bindLazy val binder w = (Ret r, w1) ->
         forall k, obs (forcings k r w1) = S (obs w))
  /\ (forall v w0,
         force val w = (Ret v, w0) ->
         Values.bindLazy val binder w = binder v w0).
Proof.
  intros Hval Hbinder.
  assert (Hcall : obs (snd (Values.bindLazy val binder w)) = S (obs w)).
  { unfold Values.bindLazy, bind. pose proof (Hval w) as H0.
    destruct (force val w) as [[v|e|] w0]; simpl in H0; trivial.
    pose proof (Hbinder v w0) as H1.
    destruct (binder v w0) as [[r|e|] w1]; simpl; try congruence.
    destruct H1 as [H1 _]. congruence. }
  split; [exact Hcall | split].
  - intros r w1 Hr k.
    assert (Hquiet : forall w2, obs (snd (force r w2)) = obs w2).
    { unfold Values.bindLazy, bind in Hr.
      destruct (force val w) as [[v|e|] w0]; try discriminate.
      pose proof (Hbinder v w0) as H1. rewrite Hr in H1. apply H1. }
    rewrite Hr in Hcall. simpl in Hcall. rewrite <- Hcall. clear Hcall Hr.
    revert w1. induction k as [|k IH]; intros w1; simpl; [reflexivity|].
    rewrite IH. apply Hquiet.
  - intros v w0 H0. apply bind_Ret, H0.
Qed.

Lemma bindLazy_forces_once_witness :
  snd (Values.bindLazy (ticking 5) (fun l => ret (lazify (l * 2))) 0) = 1
  /\ forcings 3 (@lazify nat unit nat 10) 1 = 1.
Proof.
  pose proof (@bindLazy_forces_once nat unit nat nat (fun n => n)
                (ticking 5) (fun l => ret (lazify (l * 2))) 0) as H.
  destruct H as (Hcall & Hlater & _).
  - intros w'. reflexivity.
  - intros v w'. simpl. auto.
  - split; [exact Hcall|].
    apply (Hlater (lazify 10) 1 eq_refl 3).
Defined.

(** C3, as the code has it.  [mapLazy] forces [val] and applies the mapper
    when it is called.  If the mapper throws on the forced value, the call
    itself throws and returns no lazy value; if the mapper returns [u], the
    call returns a lazy value that yields [u] whenever forced, without running
    [val] or the mapper again. *)
Theorem mapLazy_maps_at_call (W E T U : Type)
    (val : @Lazy W E T) (mapper : T -> M W E U) (w : W) (v : T) (w1 : W) :
  force val w = (Ret v, w1) ->
  (forall e w2,
      mapper v w1 = (Throw e, w2) ->
      Values.mapLazy val mapper w = (Throw e, w2))
  /\ (forall u w2,
         mapper v w1 = (Ret u, w2) ->
         exists r, Values.mapLazy val mapper w = (Ret r, w2) /\ yields r u).
Proof.
  intros Hval. unfold Values.mapLazy. rewrite (bind_Ret _ _ _ Hval). split.
  - intros e w2 H. apply bind_Throw, H.
  - intros u w2 H. rewrite (bind_Ret _ _ _ H).
    exists (lazify u). split; [reflexivity | apply yields_lazify].
Qed.

Lemma mapLazy_maps_at_call_witness :
  exists r,
    Values.mapLazy (@lazify nat unit nat 5) (fun x => ret (x * 2)) 0
    = (Ret r, 0)
    /\ yields r 10.
Proof.
  apply (proj2 (@mapLazy_maps_at_call nat unit nat nat (lazify 5)
                  (fun x => ret (x * 2)) 0 5 0 eq_refl)).
  reflexivity.
Defined.

(** C3 as stated fails: with a mapper that throws, the call [mapLazy]
    itself throws. *)
Lemma mapLazy_throws_at_call :
  Values.mapLazy (@lazify nat unit nat 5)
                 (fun _ => @throw nat unit nat (Thrown tt)) 0
  = (Throw (Thrown tt), 0).
Proof. reflexivity. Qed.

(** C2, as the code has it.  [applyLazy] forces [func], then [val], and
    applies, all when it is called.  If forcing [func] or [val] throws, the
    call itself throws; if all three steps return, the call returns a lazy
    value that yields the result whenever forced, without forcing [func] or
    [val] again. *)
Theorem applyLazy_applies_at_call (W E T U : Type)
    (val : @Lazy W E T) (func : @Lazy W E (T -> M W E U)) (w : W) :
  (forall e w1,
      force func w = (Throw e, w1) ->
      Values.applyLazy val func w = (Throw e, w1))
  /\ (forall f w1 e w2,
         force func w = (Ret f, w1) ->
         force val w1 = (Throw e, w2) ->
         Values.applyLazy val func w = (Throw e, w2))
  /\ (forall f w1 v w2 u w3,
         force func w = (Ret f, w1) ->
         force val w1 = (Ret v, w2) ->
         f v w2 = (Ret u, w3) ->
         exists r, Values.applyLazy val func w = (Ret r, w3) /\ yields r u).
Proof.
  unfold Values.applyLazy. split; [|split].
  - intros e w1 H. apply bind_Throw, H.
  - intros f w1 e w2 Hf Hv. rewrite (bind_Ret _ _ _ Hf).
    apply bind_Throw, Hv.
  - intros f w1 v w2 u w3 Hf Hv Hu.
    rewrite (bind_Ret _ _ _ Hf), (bind_Ret _ _ _ Hv), (bind_Ret _ _ _ Hu).
    exists (lazify u). split; [reflexivity | apply yields_lazify].
Qed.

Lemma applyLazy_applies_at_call_witness :
  Values.applyLazy (@lazify nat unit nat 5)
                   (@failing (nat -> M nat unit nat)) 0
  = (Throw (Thrown tt), 0).
Proof.
  apply (proj1 (@applyLazy_applies_at_call nat unit nat nat (lazify 5)
                  failing 0)).
  reflexivity.
Defined.

(** C2 as stated fails: when forcing [func] throws, or forcing [val] throws,
    the call [applyLazy] itself throws; and a [val] that counts its forcings
    has been forced once when the call returns. *)
Lemma applyLazy_throws_at_call :
  Values.applyLazy (@lazify nat unit nat 5)
                   (@failing (nat -> M nat unit nat)) 0
  = (Throw (Thrown tt), 0)
  /\ Values.applyLazy (@failing nat)
                      (lazify (fun x : nat => @ret nat unit nat (x * 2))) 0
     = (Throw (Thrown tt), 0)
  /\ snd (Values.applyLazy (ticking 5)
            (lazify (fun x : nat => @ret nat unit nat (x * 2))) 0) = 1.
Proof. repeat split. Qed.

(** ** The map on lazy arrays *)

(** C4, as the code has it.  Called with a mapper [f] that has no effect,
    the [mapLazy] of lazy arrays does to the world exactly what collapsing its
    input does: it forces the outer layer and then every element, in order,
    at the call.  If that throws or diverges, so does the call; otherwise the
    call returns a lazy array that collapses to the mapped values without
    touching the world, whenever it is collapsed. *)
Theorem mapLazy_forces_all_at_call (W E T U : Type)
    (arr : @LazyArray W E T) (f : T -> U) (w : W) :
  match collapse arr w with
  | (Ret vs, w1) =>
      exists r,
        Arrays.mapLazy arr (fun v => ret (f v)) w = (Ret r, w1)
        /\ forall w2, collapse r w2 = (Ret (map f vs), w2)
  | (Throw e, w1) =>
      Arrays.mapLazy arr (fun v => ret (f v)) w = (Throw e, w1)
  | (Diverges, w1) =>
      Arrays.mapLazy arr (fun v => ret (f v)) w = (Diverges, w1)
  end.
Proof.
  unfold collapse, Arrays.mapLazy.
  destruct (force arr w) as [[a|e|] w0] eqn:Ha.
  - rewrite !(bind_Ret _ _ _ Ha).
    pose proof (mapM_force_then_map f a w0) as H.
    destruct (mapM force a w0) as [[vs|e|] w1].
    + eexists. rewrite (bind_Ret _ _ _ H). split; [reflexivity|].
      intros w2. apply collapse_yields, yields_lazify.
    + apply bind_Throw, H.
    + apply bind_Diverges, H.
  - rewrite !(bind_Throw _ _ _ Ha). reflexivity.
  - rewrite !(bind_Diverges _ _ _ Ha). reflexivity.
Qed.

(** C4 as stated fails: after the call of [mapLazy] alone, both elements of
    an array of counting lazy values have been forced. *)
Lemma mapLazy_forces_elements_at_call :
  snd (Arrays.mapLazy (lazify [ticking 7; ticking 8])
                      (fun l => ret (l * 2)) 0) = 2.
Proof. reflexivity. Qed.

(** * Further facts on the sort on plain values *)

Section QuicksortMore.
Context {A : Type}.
Variable decide : A -> A -> number.

Lemma le0_gt0_exclusive (n : number) : le0 n = true -> gt0 n = false.
Proof.
  destruct n; simpl; try easy. intros H. rewrite H. reflexivity.
Qed.

Lemma filter_all (p : A -> bool) (l : list A) :
  (forall a, In a l -> p a = true) -> filter p l = l.
Proof.
  induction l as [|a l IH]; simpl; intros H; [reflexivity|].
  rewrite (H a (or_introl eq_refl)), IH; auto.
Qed.

Lemma filter_none (p : A -> bool) (l : list A) :
  (forall a, In a l -> p a = false) -> filter p l = [].
Proof.
  induction l as [|a l IH]; simpl; intros H; [reflexivity|].
  rewrite (H a (or_introl eq_refl)), IH; auto.
Qed.

Lemma pools_length x xs :
  length (filter (fun a => le0 (decide a x)) xs)
  + length (filter (fun a => gt0 (decide a x)) xs) <= length xs.
Proof.
  induction xs as [|a xs IH]; simpl; [lia|].
  destruct (le0 (decide a x)) eqn:Hle.
  - rewrite (le0_gt0_exclusive _ Hle). simpl. lia.
  - destruct (gt0 (decide a x)); simpl; lia.
Qed.

Lemma quicksort_length l : length (quicksort decide l) <= length l.
Proof.
  funelim (quicksort decide l); [simpl; lia|].
  rewrite length_app. simpl. pose proof (pools_length x xs). lia.
Qed.

Lemma quicksort_pivot x xs : In x (quicksort decide (x :: xs)).
Proof.
  simp quicksort. apply in_or_app. right. left. reflexivity.
Qed.

Lemma quicksort_all_le l :
  (forall a b, In a l -> In b l -> le0 (decide a b) = true) ->
  quicksort decide l = rev l.
Proof.
  funelim (quicksort decide l); intros Hle; [reflexivity|].
  assert (Hs : filter (fun a => le0 (decide a x)) xs = xs).
  { apply filter_all. intros a Ha. apply Hle; simpl; auto. }
  assert (Hb : filter (fun a => gt0 (decide a x)) xs = []).
  { apply filter_none. intros a Ha. apply le0_gt0_exclusive.
    apply Hle; simpl; auto. }
  rewrite Hs in *. rewrite Hb. simp quicksort. simpl.
  rewrite H; [reflexivity|]. intros a b Ha Hb'. apply Hle; simpl; auto.
Qed.

Lemma quicksort_all_neither l :
  (forall a b, In a l -> In b l ->
               le0 (decide a b) = false /\ gt0 (decide a b) = false) ->
  quicksort decide l = firstn 1 l.
Proof.
  funelim (quicksort decide l); intros Hn; [reflexivity|].
  assert (Hs : filter (fun a => le0 (decide a x)) xs = []).
  { apply filter_none. intros a Ha. apply Hn; simpl; auto. }
  assert (Hb : filter (fun a => gt0 (decide a x)) xs = []).
  { apply filter_none. intros a Ha. apply Hn; simpl; auto. }
  rewrite Hs, Hb. simp quicksort. reflexivity.
Qed.

Lemma comparisons_bound l :
  comparisons decide l <= length l * (length l - 1).
Proof.
  funelim (comparisons decide l); [simpl; lia|].
  pose proof (pools_length x xs) as Hp. simpl length.
  set (s := length (filter (fun a => le0 (decide a x)) xs)) in *.
  set (b := length (filter (fun a => gt0 (decide a x)) xs)) in *.
  set (n := length xs) in *.
  replace (S n - 1) with n by lia. clear Heqcall.
  assert (Hsb : s * (s - 1) + b * (b - 1) + 2 * n <= S n * n).
  { destruct s as [|s'], b as [|b']; simpl in *;
      rewrite ?Nat.sub_0_r in *; nia. }
  lia.
Qed.

Lemma comparisons_all_le l :
  (forall a b, In a l -> In b l -> le0 (decide a b) = true) ->
  comparisons decide l = length l * (length l - 1).
Proof.
  funelim (comparisons decide l); intros Hle; [reflexivity|].
  assert (Hs : filter (fun a => le0 (decide a x)) xs = xs).
  { apply filter_all. intros a Ha. apply Hle; simpl; auto. }
  assert (Hb : filter (fun a => gt0 (decide a x)) xs = []).
  { apply filter_none. intros a Ha. apply le0_gt0_exclusive.
    apply Hle; simpl; auto. }
  rewrite Hs in *. rewrite Hb. simp comparisons.
  rewrite H by (intros a b Ha Hb'; apply Hle; simpl; auto).
  simpl length. destruct (length xs) as [|n]; simpl; [reflexivity|].
  rewrite Nat.sub_0_r. lia.
Qed.

Lemma comparisons_descending l :
  ForallOrdPairs (fun x a => le0 (decide a x) = true) l ->
  comparisons decide l = length l * (length l - 1).
Proof.
  induction 1 as [|x xs Hx Hxs IH]; [reflexivity|].
  rewrite Forall_forall in Hx. simp comparisons.
  rewrite (filter_all (fun a => le0 (decide a x)) xs Hx).
  rewrite (filter_none (fun a => gt0 (decide a x)) xs)
    by (intros a Ha; apply le0_gt0_exclusive, Hx, Ha).
  simp comparisons. rewrite IH. simpl length.
  destruct (length xs) as [|n]; simpl; [reflexivity|].
  rewrite Nat.sub_0_r. lia.
Qed.

Lemma ForallOrdPairs_pool (R : A -> A -> Prop) (p : A -> bool) l :
  ForallOrdPairs R l -> ForallOrdPairs R (filter p l).
Proof.
  induction 1 as [|a l Ha Hl IH]; simpl; [constructor|].
  destruct (p a); [|exact IH].
  constructor; [apply Forall_pool, Ha | exact IH].
Qed.

(** What holds of every comparator that reads a difference: an answer
    [> 0] one way round is an answer [<= 0] the other way round, and
    [<= 0] is transitive. *)
Hypothesis anti : forall a b,
    gt0 (decide b a) = true -> le0 (decide a b) = true.
Hypothesis transitive : forall a b c,
    le0 (decide a b) = true -> le0 (decide b c) = true ->
    le0 (decide a c) = true.

Lemma quicksort_sorted l :
  StronglySorted (fun a b => le0 (decide a b) = true) (quicksort decide l).
Proof.
  funelim (quicksort decide l); [constructor|].
  rename H into Hs, H0 into Hb. clear Heqcall.
  assert (Hsmall : forall a,
             In a (quicksort decide (filter (fun a => le0 (decide a x)) xs))
             -> le0 (decide a x) = true).
  { intros a Ha. apply quicksort_In, filter_In in Ha. apply Ha. }
  assert (Hbig : forall b,
             In b (quicksort decide (filter (fun a => gt0 (decide a x)) xs))
             -> le0 (decide x b) = true).
  { intros b Hb'. apply quicksort_In, filter_In in Hb'. apply anti, Hb'. }
  induction Hs as [|a s Hs IHs Ha]; simpl.
  - constructor; [exact Hb|]. apply Forall_forall. exact Hbig.
  - constructor.
    + apply IHs. intros a' Ha'. apply Hsmall. right. exact Ha'.
    + apply Forall_app. split; [exact Ha|].
      pose proof (Hsmall a (or_introl eq_refl)) as La.
      constructor; [exact La|]. apply Forall_forall. intros b Hb'.
      apply (transitive _ _ _ La (Hbig b Hb')).
Qed.

Lemma quicksort_Permutation_pairs l :
  ForallOrdPairs
    (fun x a => le0 (decide a x) || gt0 (decide a x) = true) l ->
  Permutation l (quicksort decide l).
Proof.
  funelim (quicksort decide l); intros Hp; [constructor|].
  inversion Hp as [|? ? Hx Hxs]; subst.
  apply Permutation_cons_app.
  apply Permutation_trans
    with (filter (fun a => le0 (decide a x)) xs
          ++ filter (fun a => gt0 (decide a x)) xs).
  - clear - Hx. induction Hx as [|a xs Ha Hxs IH]; simpl; [constructor|].
    destruct (le0 (decide a x)) eqn:Hle.
    + rewrite (le0_gt0_exclusive _ Hle). constructor. exact IH.
    + simpl in Ha. rewrite Ha. apply Permutation_cons_app. exact IH.
  - apply Permutation_app; [apply H | apply H0];
      apply ForallOrdPairs_pool, Hxs.
Qed.
End QuicksortMore.

(** The differences the example comparator reads. *)
Section DifferenceMore.
Context {T : Type}.
Variable toNumber : T -> number.

Lemma difference_anti a b :
  gt0 (difference toNumber b a) = true ->
  le0 (difference toNumber a b) = true.
Proof.
  unfold difference.
  destruct (toNumber a) as [| |p|], (toNumber b) as [| |q|]; simpl;
    try easy.
  intros H. apply Qle_bool_iff.
  destruct (Qle_bool (q - p) 0) eqn:Hqp; [discriminate|].
  assert (~ (q - p <= 0)%Q) by (rewrite <- Qle_bool_iff; congruence).
  lra.
Qed.

Lemma difference_transitive a b c :
  le0 (difference toNumber a b) = true ->
  le0 (difference toNumber b c) = true ->
  le0 (difference toNumber a c) = true.
Proof.
  unfold difference.
  destruct (toNumber a) as [| |p|], (toNumber b) as [| |q|],
           (toNumber c) as [| |r|]; simpl; try easy.
  rewrite !Qle_bool_iff. intros H1 H2. lra.
Qed.

Lemma difference_decided a x :
  difference toNumber a x <> NaN ->
  le0 (difference toNumber a x) || gt0 (difference toNumber a x) = true.
Proof.
  destruct (difference toNumber a x); simpl; try easy.
  intros _. apply orb_negb_r.
Qed.
End DifferenceMore.

(** * Comparators that decide by a function *)

Section Decides.
Context {W E T : Type}.
Variable elements : @Lazy W E T -> Prop.
Variable decide : @Lazy W E T -> @Lazy W E T -> number.
Variable cmp : @Comparator W E T.
Hypothesis Hd : decidesOn elements decide cmp.

Lemma filterM_decides test x xs :
  elements x -> Forall elements xs ->
  forall w, exists w1,
    filterM (pivotTest cmp test x) xs w
    = (Ret (filter (fun a => test (decide a x)) xs), w1).
Proof.
  intros Px. induction 1 as [|a xs Pa Pxs IH]; intros w; simpl.
  - exists w. reflexivity.
  - destruct (Hd w Pa Px) as (c & w1 & w2 & H1 & H2).
    destruct (IH w2) as (w3 & H3). exists w3.
    assert (Hp : pivotTest cmp test x a w = (Ret (test (decide a x)), w2))
      by (unfold pivotTest;
          rewrite (bind_Ret _ _ _ H1), (bind_Ret _ _ _ H2); reflexivity).
    rewrite (bind_Ret _ _ _ Hp), (bind_Ret _ _ _ H3). unfold ret.
    destruct (test (decide a x)); reflexivity.
Qed.

Lemma lazyQuicksort_decides fuel :
  forall arr l w,
    yields arr l -> Forall elements l -> length l < fuel ->
    exists r w1,
      lazyQuicksort fuel arr cmp w = (Ret r, w1)
      /\ yields r (quicksort decide l).
Proof.
  induction fuel as [|fuel IH]; intros arr l w Harr Pl Hlen; [lia|].
  destruct l as [|x xs].
  - exists arr, w. erewrite lazyQuicksort_nil by apply Harr.
    simp quicksort. auto.
  - erewrite lazyQuicksort_cons by apply Harr. unfold level.
    inversion Pl as [|? ? Px Pxs]; subst. simpl in Hlen.
    destruct (filterM_decides le0 Px Pxs w) as (w1 & H1).
    rewrite (bind_Ret _ _ _ H1).
    destruct (IH (lazify (filter (fun a => le0 (decide a x)) xs)) _ w1
                 (yields_lazify _) (Forall_filter _ Pxs))
      as (rs & w2 & H2 & Ys).
    { pose proof (filter_length_le (fun a => le0 (decide a x)) xs). lia. }
    rewrite (bind_Ret _ _ _ H2).
    destruct (filterM_decides gt0 Px Pxs w2) as (w3 & H3).
    rewrite (bind_Ret _ _ _ H3).
    destruct (IH (lazify (filter (fun a => gt0 (decide a x)) xs)) _ w3
                 (yields_lazify _) (Forall_filter _ Pxs))
      as (rb & w4 & H4 & Yb).
    { pose proof (filter_length_le (fun a => gt0 (decide a x)) xs). lia. }
    rewrite (bind_Ret _ _ _ H4).
    rewrite (bind_Ret _ _ _ (Ys w4)), (bind_Ret _ _ _ (Yb w4)).
    eexists. exists w4. split; [reflexivity|].
    simp quicksort. apply yields_lazify.
Qed.
End Decides.

(** * Where the elements of the result come from *)

Section Drawn.
Context {W E T : Type}.
Variable cmp : @Comparator W E T.

Lemma lazyQuicksort_drawn fuel :
  forall arr l w r w1,
    yields arr l ->
    lazyQuicksort fuel arr cmp w = (Ret r, w1) ->
    exists l',
      yields r l' /\ incl l' l /\ (forall x xs, l = x :: xs -> In x l').
Proof.
  induction fuel as [|fuel IH]; intros arr l w r w1 Harr Hrun;
    [discriminate|].
  destruct l as [|x xs].
  - erewrite lazyQuicksort_nil in Hrun by apply Harr.
    inversion Hrun; subst. exists []. repeat split; [exact Harr|easy|easy].
  - erewrite lazyQuicksort_cons in Hrun by apply Harr.
    unfold level, bind in Hrun.
    destruct (filterM (pivotTest cmp le0 x) xs w) as [[sm|e|] w2] eqn:F1;
      try discriminate.
    destruct (lazyQuicksort fuel (lazify sm) cmp w2) as [[rs|e|] w3] eqn:R1;
      try discriminate.
    destruct (filterM (pivotTest cmp gt0 x) xs w3) as [[bg|e|] w4] eqn:F2;
      try discriminate.
    destruct (lazyQuicksort fuel (lazify bg) cmp w4) as [[rb|e|] w5] eqn:R2;
      try discriminate.
    destruct (IH _ sm _ _ _ (yields_lazify _) R1) as (ls & Ys & Is & _).
    destruct (IH _ bg _ _ _ (yields_lazify _) R2) as (lb & Yb & Ib & _).
    rewrite (Ys w5), (Yb w5) in Hrun. inversion Hrun; subst.
    exists (ls ++ x :: lb). split; [apply yields_lazify|]. split.
    + intros a Ha. apply in_app_or in Ha. destruct Ha as [Ha|[Ha|Ha]].
      * right. apply (filterM_In _ _ _ F1), Is, Ha.
      * left. exact Ha.
      * right. apply (filterM_In _ _ _ F2), Ib, Ha.
    + intros x' xs' Heq. inversion Heq; subst.
      apply in_or_app. right. left. reflexivity.
Qed.
End Drawn.

(** * Laws of the combinators on lazy values *)

(** Mapping the identity and forcing the result is forcing the value: same
    outcome, same world. *)
Theorem mapLazy_identity (W E T : Type) (val : @Lazy W E T) (w : W) :
  (r <- Values.mapLazy val (fun x => ret x) ;; force r) w = force val w.
Proof.
  unfold Values.mapLazy, bind, force, lazify, ret.
  destruct (val tt w) as [[v|e|] w1]; reflexivity.
Qed.

(** Mapping [f] and then mapping [g] over the result is mapping "[f], then
    [g]" once: the two mappers run in the same order on the same worlds, and
    the same lazy value is returned. *)
Theorem mapLazy_composition (W E T U V : Type) (val : @Lazy W E T)
    (f : T -> M W E U) (g : U -> M W E V) (w : W) :
  (r <- Values.mapLazy val f ;; Values.mapLazy r g) w
  = Values.mapLazy val (fun x => y <- f x ;; g y) w.
Proof.
  unfold Values.mapLazy, bind, force, lazify, ret.
  destruct (val tt w) as [[v|e|] w1]; try reflexivity.
  destruct (f v w1) as [[u|e|] w2]; reflexivity.
Qed.

(** [bindLazy] obeys the monad laws for lazy values: binding a value made by
    [lazify] is calling the binder; binding [lazify] itself and forcing gives
    back the value; and two binds in a row nest. *)
Theorem bindLazy_monad_laws (W E T U V : Type) (w : W) :
  (forall (v : T) (f : T -> M W E (@Lazy W E U)),
      Values.bindLazy (lazify v) f w = f v w)
  /\ (forall val : @Lazy W E T,
         (r <- Values.bindLazy val (fun v => ret (lazify v)) ;; force r) w
         = force val w)
  /\ (forall (val : @Lazy W E T) (f : T -> M W E (@Lazy W E U))
             (g : U -> M W E (@Lazy W E V)),
         (r <- Values.bindLazy val f ;; Values.bindLazy r g) w
         = Values.bindLazy val (fun v => r <- f v ;; Values.bindLazy r g) w).
Proof.
  split; [|split].
  - reflexivity.
  - intros val. unfold Values.bindLazy, bind, force, lazify, ret.
    destruct (val tt w) as [[v|e|] w1]; reflexivity.
  - intros val f g. unfold Values.bindLazy, bind, force.
    destruct (val tt w) as [[v|e|] w1]; reflexivity.
Qed.

(** [applyLazy] with a function made lazy by [lazify] is [mapLazy], and
    [mapLazy] is [bindLazy] with a binder that wraps the mapper's result. *)
Theorem applyLazy_lazify_is_mapLazy (W E T U : Type) (val : @Lazy W E T)
    (f : T -> M W E U) (w : W) :
  Values.applyLazy val (lazify f) w = Values.mapLazy val f w
  /\ Values.mapLazy val f w
     = Values.bindLazy val (fun v => u <- f v ;; ret (lazify u)) w.
Proof.
  split; reflexivity.
Qed.

(** * Collapsing and mapping lazy arrays *)

Section MapM.
Context {W E : Type}.

Lemma mapM_length {A B} (f : A -> M W E B) (l : list A) :
  forall w bs w1, mapM f l w = (Ret bs, w1) -> length bs = length l.
Proof.
  induction l as [|a l IH]; simpl; intros w bs w1 H.
  - inversion H. reflexivity.
  - unfold bind in H.
    destruct (f a w) as [[b| |] w2]; try discriminate.
    destruct (mapM f l w2) as [[bs'| |] w3] eqn:Hm; try discriminate.
    inversion H; subst. simpl. f_equal. apply (IH _ _ _ Hm).
Qed.

Lemma mapM_stops {A B} (f : A -> M W E B) (pre : list A) bad post :
  forall w bs w1 e w2,
    mapM f pre w = (Ret bs, w1) -> f bad w1 = (Throw e, w2) ->
    mapM f (pre ++ bad :: post) w = (Throw e, w2).
Proof.
  induction pre as [|a pre IH]; simpl; intros w bs w1 e w2 Hpre Hbad.
  - inversion Hpre; subst. apply bind_Throw, Hbad.
  - unfold bind in Hpre.
    destruct (f a w) as [[b| |] w3] eqn:Ha; try discriminate.
    destruct (mapM f pre w3) as [[bs'| |] w4] eqn:Hm; try discriminate.
    inversion Hpre; subst.
    rewrite (bind_Ret _ _ _ Ha). apply bind_Throw. apply (IH _ _ _ _ _ Hm Hbad).
Qed.

Lemma mapM_lazified {T U} (mapper : T -> M W E U) (xs : list T) :
  forall w,
    mapM (fun l => v <- force l ;; u <- mapper v ;; ret (@lazify W E U u))
         (map (fun l => @lazify W E T l) xs) w
    = match mapM mapper xs w with
      | (Ret us, w1) => (Ret (map (fun l => lazify l) us), w1)
      | (Throw e, w1) => (Throw e, w1)
      | (Diverges, w1) => (Diverges, w1)
      end.
Proof.
  induction xs as [|x xs IH]; intros w; [reflexivity|]. cbn [mapM map].
  destruct (mapper x w) as [[u|e|] w1] eqn:Hx.
  - assert (X : (v <- force (lazify x) ;; u0 <- mapper v ;;
                 ret (@lazify W E U u0)) w = (Ret (lazify u), w1))
      by (unfold bind at 1; cbn [force lazify ret];
          rewrite (bind_Ret _ _ _ Hx); reflexivity).
    rewrite (bind_Ret _ _ _ X), (bind_Ret _ _ _ Hx). specialize (IH w1).
    destruct (mapM mapper xs w1) as [[us|e|] w2] eqn:Hm.
    + rewrite (bind_Ret _ _ _ IH), (bind_Ret _ _ _ Hm). reflexivity.
    + rewrite (bind_Throw _ _ _ IH), (bind_Throw _ _ _ Hm). reflexivity.
    + rewrite (bind_Diverges _ _ _ IH), (bind_Diverges _ _ _ Hm).
      reflexivity.
  - assert (X : (v <- force (lazify x) ;; u0 <- mapper v ;;
                 ret (@lazify W E U u0)) w = (Throw e, w1))
      by (unfold bind at 1; cbn [force lazify ret]; apply bind_Throw, Hx).
    rewrite (bind_Throw _ _ _ X), (bind_Throw _ _ _ Hx). reflexivity.
  - assert (X : (v <- force (lazify x) ;; u0 <- mapper v ;;
                 ret (@lazify W E U u0)) w = (Diverges, w1))
      by (unfold bind at 1; cbn [force lazify ret]; apply bind_Diverges, Hx).
    rewrite (bind_Diverges _ _ _ X), (bind_Diverges _ _ _ Hx). reflexivity.
Qed.

End MapM.



(** Collapsing stops at the first element that throws: the elements before
    it have been forced, the exception is the one it threw, and the elements
    after it are never forced, whatever they are. *)
Theorem collapse_stops_at_first_failure (W E T : Type)
    (pre post : list (@Lazy W E T)) (bad : @Lazy W E T)
    (w : W) (vs : list T) (w1 : W) (e : exn E) (w2 : W) :
  collapse (lazify pre) w = (Ret vs, w1) ->
  force bad w1 = (Throw e, w2) ->
  collapse (lazify (pre ++ bad :: post)) w = (Throw e, w2).
Proof.
  intros Hpre Hbad.
  change (mapM force pre w = (Ret vs, w1)) in Hpre.
  change (mapM force (pre ++ bad :: post) w = (Throw e, w2)).
  eapply mapM_stops; eassumption.
Qed.

Lemma collapse_stops_at_first_failure_witness :
  collapse (lazify [ticking 7; failing; ticking 9]) 0
  = (Throw (Thrown tt), 1).
Proof.
  apply (@collapse_stops_at_first_failure nat unit nat
           [ticking 7] [ticking 9] failing 0 [7] 1 (Thrown tt) 1);
    reflexivity.
Defined.

(** The [mapLazy] of lazy arrays stops at the first element that throws
    when forced, in the same way: the mapper is not run on it, and the later
    elements are neither forced nor mapped. *)
Theorem mapLazy_stops_at_first_failure (W E T U : Type)
    (pre post : list (@Lazy W E T)) (bad : @Lazy W E T)
    (mapper : T -> M W E U)
    (w : W) (r : @LazyArray W E U) (w1 : W) (e : exn E) (w2 : W) :
  Arrays.mapLazy (lazify pre) mapper w = (Ret r, w1) ->
  force bad w1 = (Throw e, w2) ->
  Arrays.mapLazy (lazify (pre ++ bad :: post)) mapper w = (Throw e, w2).
Proof.
  intros Hpre Hbad.
  set (g := fun l : @Lazy W E T =>
              v <- force l ;; u <- mapper v ;; ret (@lazify W E U u)).
  change ((bs <- mapM g pre ;; ret (lazify bs)) w = (Ret r, w1)) in Hpre.
  change ((bs <- mapM g (pre ++ bad :: post) ;;
           ret (@lazify W E (list (@Lazy W E U)) bs)) w
          = (Throw e, w2)).
  unfold bind in Hpre.
  destruct (mapM g pre w) as [[bs| |] w3] eqn:Hm; try discriminate.
  inversion Hpre; subst.
  apply bind_Throw. eapply mapM_stops; [exact Hm|].
  apply bind_Throw, Hbad.
Qed.

Lemma mapLazy_stops_at_first_failure_witness :
  Arrays.mapLazy (lazify [ticking 7; failing; ticking 9])
                 (fun l => ret (l * 2)) 0
  = (Throw (Thrown tt), 1).
Proof.
  apply (@mapLazy_stops_at_first_failure nat unit nat nat
           [ticking 7] [ticking 9] failing (fun l => ret (l * 2))
           0 (lazify [lazify 14]) 1 (Thrown tt) 1);
    reflexivity.
Defined.

(** The [mapLazy] of lazy arrays keeps the length: when it returns, the lazy
    array it returns yields, without effect, as many closures as the forcing
    of its input yielded. *)
Theorem mapLazy_keeps_length (W E T U : Type) (arr : @LazyArray W E T)
    (mapper : T -> M W E U) (w : W) (a : list (@Lazy W E T)) (w0 : W)
    (r : @LazyArray W E U) (w1 : W) :
  force arr w = (Ret a, w0) ->
  Arrays.mapLazy arr mapper w = (Ret r, w1) ->
  exists a', yields r a' /\ length a' = length a.
Proof.
  unfold Arrays.mapLazy. intros Harr Hrun.
  rewrite (bind_Ret _ _ _ Harr) in Hrun.
  set (g := fun l : @Lazy W E T =>
              v <- force l ;; u <- mapper v ;; ret (@lazify W E U u)) in Hrun.
  unfold bind in Hrun.
  destruct (mapM g a w0) as [[bs| |] w3] eqn:Hm; try discriminate.
  inversion Hrun; subst. exists bs.
  split; [apply yields_lazify | apply (mapM_length _ _ _ Hm)].
Qed.

Lemma mapLazy_keeps_length_witness :
  exists a',
    yields (@lazify nat unit _ [@lazify nat unit nat 14; lazify 16]) a'
    /\ length a' = 2.
Proof.
  apply (@mapLazy_keeps_length nat unit nat nat
           (lazify [ticking 7; ticking 8]) (fun l => ret (l * 2)) 0
           [ticking 7; ticking 8] 0 (lazify [lazify 14; lazify 16]) 2);
    reflexivity.
Defined.

(** On an array converted by [lazyToGreedy], the [mapLazy] of lazy arrays
    runs the mapper on the values from left to right: it throws or diverges
    where that does, and otherwise returns a lazy array that collapses to the
    mapper's results without touching the world. *)
Theorem mapLazy_lazyToGreedy (W E T U : Type) (xs : list T)
    (mapper : T -> M W E U) (w : W) :
  match mapM mapper xs w with
  | (Ret us, w1) =>
      exists r,
        Arrays.mapLazy (lazyToGreedy xs) mapper w = (Ret r, w1)
        /\ forall w2, collapse r w2 = (Ret us, w2)
  | (Throw e, w1) =>
      Arrays.mapLazy (lazyToGreedy xs) mapper w = (Throw e, w1)
  | (Diverges, w1) =>
      Arrays.mapLazy (lazyToGreedy xs) mapper w = (Diverges, w1)
  end.
Proof.
  unfold Arrays.mapLazy, lazyToGreedy.
  rewrite (bind_Ret _ _ _ (yields_lazify _ w)).
  pose proof (mapM_lazified mapper xs w) as H.
  destruct (mapM mapper xs w) as [[us|e|] w1].
  - eexists. rewrite (bind_Ret _ _ _ H). split; [reflexivity|].
    intros w2. apply collapse_yields, yields_lazify.
  - apply bind_Throw, H.
  - apply bind_Diverges, H.
Qed.

(** * Further properties of the sort *)

(** Whatever the comparator does, the sort only moves the closures it was
    given: when a call returns, the array it returns is effect-free, every
    closure in it is one of the input, and the pivot, the first closure of
    the input, is in it.  (A comparator that answers [NaN] makes closures
    disappear, and one that changes its answer between the two passes can
    make a closure appear in both pools; neither can bring in a closure that
    was not in the input.) *)
Theorem lazyQuicksort_moves_closures (W E T : Type)
    (comparator : @Comparator W E T) (arr : @LazyArray W E T)
    (l : list (@Lazy W E T)) (fuel : nat) (w : W)
    (r : @LazyArray W E T) (w1 : W) :
  yields arr l ->
  lazyQuicksort fuel arr comparator w = (Ret r, w1) ->
  exists l',
    yields r l' /\ incl l' l /\ (forall x xs, l = x :: xs -> In x l').
Proof.
  intros Harr Hrun. eapply lazyQuicksort_drawn; eassumption.
Qed.

Lemma lazyQuicksort_moves_closures_witness :
  exists l',
    yields (@lazify nat unit _ [lazify 2; lazify 1; lazify 3]) l'
    /\ incl l' threeLazy
    /\ (forall x xs, threeLazy = x :: xs -> In x l').
Proof.
  apply (@lazyQuicksort_moves_closures nat unit nat indifferent
           (lazify threeLazy) threeLazy 4 0
           (lazify [lazify 2; lazify 1; lazify 3]) 0).
  - apply yields_lazify.
  - reflexivity.
Defined.

(** If the comparator decides by a function [decide] on the closures of the
    input, the sort returns: its result yields, without effect, the plain
    quicksort of the input closures under [decide], which is never longer
    than the input. *)
Theorem lazyQuicksort_refines_quicksort (W E T : Type)
    (elements : @Lazy W E T -> Prop)
    (decide : @Lazy W E T -> @Lazy W E T -> number)
    (comparator : @Comparator W E T) (arr : @LazyArray W E T)
    (l : list (@Lazy W E T)) (fuel : nat) (w : W) :
  decidesOn elements decide comparator ->
  yields arr l -> Forall elements l -> length l < fuel ->
  exists r w1,
    lazyQuicksort fuel arr comparator w = (Ret r, w1)
    /\ yields r (quicksort decide l)
    /\ length (quicksort decide l) <= length l.
Proof.
  intros Hd Harr Pl Hlen.
  destruct (lazyQuicksort_decides Hd w Harr Pl Hlen) as (r & w1 & H & Y).
  exists r, w1. split; [exact H|]. split; [exact Y|].
  apply quicksort_length.
Qed.

Lemma lazyQuicksort_refines_quicksort_witness :
  exists r w1,
    lazyQuicksort 4 (lazify threeLazy) tallying 0 = (Ret r, w1)
    /\ yields r (quicksort (fun _ _ => Fin 0) threeLazy)
    /\ length (quicksort (fun _ _ => Fin 0) threeLazy) <= length threeLazy.
Proof.
  apply (@lazyQuicksort_refines_quicksort nat unit nat (fun _ => True)
           (fun _ _ => Fin 0) tallying (lazify threeLazy) threeLazy 4 0).
  - intros a b w _ _. exists (lazify (Fin 0)), (S w), (S w).
    split; reflexivity.
  - apply yields_lazify.
  - repeat constructor.
  - simpl. lia.
Defined.

(** The sort is not stable: if the comparator ranks every closure of the
    input not greater than every other (all equal, for one), the result is
    the input in reverse order. *)
Theorem lazyQuicksort_reverses_equals (W E T : Type)
    (elements : @Lazy W E T -> Prop)
    (decide : @Lazy W E T -> @Lazy W E T -> number)
    (comparator : @Comparator W E T) (arr : @LazyArray W E T)
    (l : list (@Lazy W E T)) (fuel : nat) (w : W) :
  decidesOn elements decide comparator ->
  (forall a b, In a l -> In b l -> le0 (decide a b) = true) ->
  yields arr l -> Forall elements l -> length l < fuel ->
  exists r w1,
    lazyQuicksort fuel arr comparator w = (Ret r, w1) /\ yields r (rev l).
Proof.
  intros Hd Hle Harr Pl Hlen.
  destruct (lazyQuicksort_decides Hd w Harr Pl Hlen) as (r & w1 & H & Y).
  exists r, w1. split; [exact H|].
  rewrite <- (quicksort_all_le decide l Hle). exact Y.
Qed.

Lemma lazyQuicksort_reverses_equals_witness :
  exists r w1,
    lazyQuicksort 4 (lazify threeLazy) indifferent 0 = (Ret r, w1)
    /\ yields r (rev threeLazy).
Proof.
  apply (@lazyQuicksort_reverses_equals nat unit nat (fun _ => True)
           (fun _ _ => Fin 0) indifferent (lazify threeLazy) threeLazy 4 0).
  - intros a b w _ _. exists (lazify (Fin 0)), w, w. split; reflexivity.
  - intros a b _ _. reflexivity.
  - apply yields_lazify.
  - repeat constructor.
  - simpl. lia.
Defined.

(** If the comparator answers neither [<= 0] nor [> 0] on the closures of
    the input ([NaN], for one), every closure but the pivot is lost: the
    result is the first closure of the input alone, or empty on an empty
    input. *)
Theorem lazyQuicksort_keeps_only_pivot (W E T : Type)
    (elements : @Lazy W E T -> Prop)
    (decide : @Lazy W E T -> @Lazy W E T -> number)
    (comparator : @Comparator W E T) (arr : @LazyArray W E T)
    (l : list (@Lazy W E T)) (fuel : nat) (w : W) :
  decidesOn elements decide comparator ->
  (forall a b, In a l -> In b l ->
               le0 (decide a b) = false /\ gt0 (decide a b) = false) ->
  yields arr l -> Forall elements l -> length l < fuel ->
  exists r w1,
    lazyQuicksort fuel arr comparator w = (Ret r, w1)
    /\ yields r (firstn 1 l).
Proof.
  intros Hd Hn Harr Pl Hlen.
  destruct (lazyQuicksort_decides Hd w Harr Pl Hlen) as (r & w1 & H & Y).
  exists r, w1. split; [exact H|].
  rewrite <- (quicksort_all_neither decide l Hn). exact Y.
Qed.

Lemma lazyQuicksort_keeps_only_pivot_witness :
  exists r w1,
    lazyQuicksort 4 (lazify threeLazy)
                  (fun a b => ret (lazify NaN)) 0 = (Ret r, w1)
    /\ yields r [lazify 3].
Proof.
  apply (@lazyQuicksort_keeps_only_pivot nat unit nat (fun _ => True)
           (fun _ _ => NaN) (fun a b => ret (lazify NaN))
           (lazify threeLazy) threeLazy 4 0).
  - intros a b w _ _. exists (lazify NaN), w, w. split; reflexivity.
  - intros a b _ _. split; reflexivity.
  - apply yields_lazify.
  - repeat constructor.
  - simpl. lia.
Defined.

(** The sort is correct for every comparator that decides by an order: if
    on the closures of the input the two tests exclude each other and
    [decide a b <= 0] is total and transitive, the result is a permutation of
    the input closures in which each is not greater than every later one. *)
Theorem lazyQuicksort_sorts_by_order (W E T : Type)
    (elements : @Lazy W E T -> Prop)
    (decide : @Lazy W E T -> @Lazy W E T -> number)
    (comparator : @Comparator W E T) (arr : @LazyArray W E T)
    (l : list (@Lazy W E T)) (fuel : nat) (w : W) :
  decidesOn elements decide comparator ->
  (forall a b, elements a -> elements b ->
               gt0 (decide a b) = negb (le0 (decide a b))) ->
  (forall a b, elements a -> elements b ->
               le0 (decide a b) = false -> le0 (decide b a) = true) ->
  (forall a b c, elements a -> elements b -> elements c ->
                 le0 (decide a b) = true -> le0 (decide b c) = true ->
                 le0 (decide a c) = true) ->
  yields arr l -> Forall elements l -> length l < fuel ->
  exists r l' w1,
    lazyQuicksort fuel arr comparator w = (Ret r, w1)
    /\ yields r l'
    /\ Permutation l l'
    /\ StronglySorted (fun a b => le0 (decide a b) = true) l'.
Proof.
  intros Hd Hsplit Htotal Htrans Harr Pl Hlen.
  destruct (lazyQuicksort_decides Hd w Harr Pl Hlen) as (r & w1 & H & Y).
  exists r, (quicksort decide l), w1. split; [exact H|]. split; [exact Y|].
  split.
  - apply quicksort_Permutation with (ok := elements); assumption.
  - apply quicksort_StronglySorted with (ok := elements); assumption.
Qed.

Lemma lazyQuicksort_sorts_by_order_witness :
  exists r l' w1,
    lazyQuicksort 4 (lazify threeLazy)
                  (subtraction (fun n => Fin (inject_Z (Z.of_nat n)))) 0
    = (Ret r, w1)
    /\ yields r l'
    /\ Permutation threeLazy l'
    /\ StronglySorted (fun a b => le0 (differenceAtStart a b) = true) l'.
Proof.
  apply (@lazyQuicksort_sorts_by_order nat unit nat
           (fun a => exists v, a = lazify v) differenceAtStart
           (subtraction (fun n => Fin (inject_Z (Z.of_nat n))))
           (lazify threeLazy) threeLazy 4 0).
  - intros a b w [u Hu] [v Hv]. subst.
    eexists. exists w, w. split; reflexivity.
  - intros a b [u Hu] [v Hv]. subst.
    apply (difference_split (fun n => Fin (inject_Z (Z.of_nat n))) u v);
      exact I.
  - intros a b [u Hu] [v Hv]. subst.
    apply (difference_total (fun n => Fin (inject_Z (Z.of_nat n))) u v);
      exact I.
  - intros a b c [u Hu] [v Hv] [t Ht]. subst.
    apply (difference_trans (fun n => Fin (inject_Z (Z.of_nat n))) u v t);
      exact I.
  - apply yields_lazify.
  - repeat constructor; eexists; reflexivity.
  - simpl. lia.
Defined.

(** With a comparator whose answers on the closures of the array are a
    function of its two arguments, a sort of [n] closures never calls the
    comparator more than [n * (n - 1)] times. *)
Theorem comparator_calls_bounded (W E T : Type)
    (elements : @Lazy W E T -> Prop) (obs : W -> nat)
    (decide : @Lazy W E T -> @Lazy W E T -> number)
    (comparator : @Comparator W E T)
    (l : list (@Lazy W E T)) (fuel : nat) (w : W) :
  counted elements obs decide comparator ->
  Forall elements l ->
  length l < fuel ->
  exists r w1,
    lazyQuicksort fuel (lazify l) comparator w = (Ret r, w1)
    /\ obs w1 <= length l * (length l - 1) + obs w.
Proof.
  intros Hc Pl Hlen.
  destruct (lazyQuicksort_counted Hc (arr := lazify l) w
              (yields_lazify l) Pl Hlen) as (r & w1 & H & _ & O).
  exists r, w1. split; [exact H|].
  pose proof (comparisons_bound decide l). lia.
Qed.

Lemma comparator_calls_bounded_witness :
  exists r w1,
    lazyQuicksort 5 (lazify fourLazy) tallyingSubtraction 0 = (Ret r, w1)
    /\ w1 <= 4 * (4 - 1) + 0.
Proof.
  apply (@comparator_calls_bounded nat unit nat lazified (fun n => n)
           differenceAtStart tallyingSubtraction fourLazy 5 0).
  - intros a b w [u Hu] [v Hv]. subst.
    eexists. exists (S w), (S w). repeat split; reflexivity.
  - repeat constructor; eexists; reflexivity.
  - simpl. lia.
Defined.

(** The bound is reached on an input in descending order or of equal
    elements: when the comparator, deciding by a function of its arguments,
    ranks every closure not greater than every closure before it in the
    array, every call hands its whole remainder to one recursive call, and a
    sort of [n] closures calls the comparator exactly [n * (n - 1)] times. *)
Theorem comparator_calls_worst_case (W E T : Type)
    (elements : @Lazy W E T -> Prop) (obs : W -> nat)
    (decide : @Lazy W E T -> @Lazy W E T -> number)
    (comparator : @Comparator W E T)
    (l : list (@Lazy W E T)) (fuel : nat) (w : W) :
  counted elements obs decide comparator ->
  Forall elements l ->
  ForallOrdPairs (fun x a => le0 (decide a x) = true) l ->
  length l < fuel ->
  exists r w1,
    lazyQuicksort fuel (lazify l) comparator w = (Ret r, w1)
    /\ obs w1 = length l * (length l - 1) + obs w.
Proof.
  intros Hc Pl Hle Hlen.
  destruct (lazyQuicksort_counted Hc (arr := lazify l) w
              (yields_lazify l) Pl Hlen) as (r & w1 & H & _ & O).
  exists r, w1. split; [exact H|].
  rewrite O, (comparisons_descending decide Hle). reflexivity.
Qed.

Lemma comparator_calls_worst_case_witness :
  exists r w1,
    lazyQuicksort 4 (lazify descendingLazy) tallyingSubtraction 0
    = (Ret r, w1)
    /\ w1 = 3 * (3 - 1) + 0.
Proof.
  apply (@comparator_calls_worst_case nat unit nat lazified (fun n => n)
           differenceAtStart tallyingSubtraction descendingLazy 4 0).
  - intros a b w [u Hu] [v Hv]. subst.
    eexists. exists (S w), (S w). repeat split; reflexivity.
  - repeat constructor; eexists; reflexivity.
  - repeat constructor.
  - simpl. lia.
Defined.

(** A failure of the comparator surfaces at the call of the sort: if the
    comparator throws when it is called on the first closure of the remainder
    and the pivot, or if the lazy number it returns there throws when forced,
    the call of [lazyQuicksort] throws that exception, in the world the
    failure left, and nothing else is run. *)
Theorem comparator_failure_propagates (W E T : Type)
    (comparator : @Comparator W E T) (arr : @LazyArray W E T)
    (x a : @Lazy W E T) (xs : list (@Lazy W E T)) (fuel : nat) (w : W) :
  yields arr (x :: a :: xs) ->
  (forall e w1,
      comparator a x w = (Throw e, w1) ->
      lazyQuicksort (S fuel) arr comparator w = (Throw e, w1))
  /\ (forall c w1 e w2,
         comparator a x w = (Ret c, w1) ->
         force c w1 = (Throw e, w2) ->
         lazyQuicksort (S fuel) arr comparator w = (Throw e, w2)).
Proof.
  intros Harr. erewrite lazyQuicksort_cons by apply Harr.
  unfold level. cbn [filterM]. split.
  - intros e w1 H. apply bind_Throw, bind_Throw.
    unfold pivotTest. apply bind_Throw, H.
  - intros c w1 e w2 H1 H2. apply bind_Throw, bind_Throw.
    unfold pivotTest. rewrite (bind_Ret _ _ _ H1). apply bind_Throw, H2.
Qed.

Lemma comparator_failure_propagates_witness :
  lazyQuicksort 1 (lazify [ticking 1; ticking 2; ticking 3])
                (fun a b => throw (Thrown tt)) 0
  = (Throw (Thrown tt), 0).
Proof.
  apply (proj1 (@comparator_failure_propagates nat unit nat
                  (fun a b => throw (Thrown tt))
                  (lazify [ticking 1; ticking 2; ticking 3])
                  (ticking 1) (ticking 2) [ticking 3] 0 0
                  (yields_lazify _))).
  reflexivity.
Defined.

(** Sorting, mapping and collapsing (the third snippet) returns the image
    under the mapper of what sorting and collapsing (the first) returns, for
    the subtraction comparator and a mapper [f] without effect. *)
Theorem sortMapCollapse_maps_sorted (W E T U : Type) (toNumber : T -> number)
    (f : T -> U) (xs : list T) (fuel : nat) (w : W) :
  length xs < fuel ->
  exists ys,
    sortAndCollapse fuel xs (@subtraction W E T toNumber) w = (Ret ys, w)
    /\ sortMapCollapse fuel xs (@subtraction W E T toNumber)
                       (fun v => ret (f v)) w
       = (Ret (map f ys), w).
Proof.
  intros Hlen. exists (quicksort (difference toNumber) xs).
  split; [apply sortAndCollapse_subtraction, Hlen|].
  unfold sortMapCollapse.
  destruct (lazyQuicksort_subtraction toNumber
              (arr := @lazyToGreedy W E T xs) xs w
              (yields_lazify _) Hlen) as (r & Hr & Yr).
  rewrite (bind_Ret _ _ _ Hr).
  assert (Hm : Arrays.mapLazy r (fun v => ret (f v)) w
               = (Ret (lazify (map (fun l => lazify l)
                                   (map f (quicksort (difference toNumber)
                                                     xs)))), w)).
  { unfold Arrays.mapLazy. rewrite (bind_Ret _ _ _ (Yr w)).
    assert (H := mapM_force_then_map (W := W) (E := E) f
                   (map (fun l => lazify l)
                        (quicksort (difference toNumber) xs)) w).
    rewrite mapM_force_lazify in H. rewrite (bind_Ret _ _ _ H).
    reflexivity. }
  rewrite (bind_Ret _ _ _ Hm). apply collapse_yields, yields_lazify.
Qed.

Lemma sortMapCollapse_maps_sorted_witness :
  exists ys,
    sortAndCollapse 5 [Fin 2; Fin 4; Fin 1; Fin 3]
                    (@subtraction nat unit number (fun n => n)) 0
    = (Ret ys, 0)
    /\ sortMapCollapse 5 [Fin 2; Fin 4; Fin 1; Fin 3]
                       (@subtraction nat unit number (fun n => n))
                       (fun v => ret (sub v v)) 0
       = (Ret (map (fun v => sub v v) ys), 0).
Proof.
  apply (@sortMapCollapse_maps_sorted nat unit number number (fun n => n)
           (fun v => sub v v) [Fin 2; Fin 4; Fin 1; Fin 3] 5 0).
  simpl. lia.
Defined.

(** Lazy values are not remembered, and the sort forces its input twice.  If
    the input yields a non-empty array at the emptiness test and an empty one
    when it is destructured, the pivot is [undefined]: the comparator is never
    called, the sort returns a one-element array holding [undefined], and
    collapsing that array throws a [TypeError]. *)
Theorem lazyQuicksort_inconsistent_input (W E T : Type)
    (comparator : @Comparator W E T) (arr : @LazyArray W E T)
    (a0 : list (@Lazy W E T)) (fuel : nat) (w w1 w2 : W) :
  force arr w = (Ret a0, w1) ->
  a0 <> [] ->
  force arr w1 = (Ret [], w2) ->
  exists r,
    lazyQuicksort (S (S fuel)) arr comparator w = (Ret r, w2)
    /\ yields r [undefined]
    /\ forall w', collapse r w' = (Throw TypeError, w').
Proof.
  intros H0 Hne H1. exists (lazify [undefined]).
  split; [|split; [apply yields_lazify | reflexivity]].
  rewrite lazyQuicksort_S, (bind_Ret _ _ _ H0).
  destruct a0 as [|x0 xs0]; [congruence|]. cbn [length Nat.eqb].
  rewrite (bind_Ret _ _ _ H1). reflexivity.
Qed.

Lemma lazyQuicksort_inconsistent_input_witness :
  exists r,
    lazyQuicksort 2
      (fun (_ : unit) (n : nat) =>
         (@Ret unit _ (if Nat.eqb n 0 then [@lazify nat unit nat 1] else []),
          S n))
      indifferent 0
    = (Ret r, 2)
    /\ yields r [undefined]
    /\ forall w', collapse r w' = (Throw TypeError, w').
Proof.
  apply (@lazyQuicksort_inconsistent_input nat unit nat indifferent
           (fun _ n => (Ret (if Nat.eqb n 0 then [lazify 1] else []), S n))
           [lazify 1] 0 0 1 2).
  - reflexivity.
  - discriminate.
  - reflexivity.
Defined.

(** * The subtraction comparator on any numbers *)

(** With the subtraction comparator, at any element type with its coercion
    to a number (the identity on numbers, [ofBool] on booleans), sorting and
    collapsing returns, leaves the world unchanged, and its result is always
    sorted: every element is not greater than every later one.  The result is
    a permutation of the array whenever no element has a [NaN] difference
    with an element before it in the array; that allows one [+Infinity] and
    one [-Infinity], and excludes [NaN] in an array of two or more. *)
Theorem lazyQuicksort_sorts_comparable (W E T : Type)
    (toNumber : T -> number) (xs : list T) (fuel : nat) (w : W) :
  length xs < fuel ->
  exists ys,
    sortAndCollapse fuel xs (@subtraction W E T toNumber) w = (Ret ys, w)
    /\ StronglySorted
         (fun a b => le0 (sub (toNumber a) (toNumber b)) = true) ys
    /\ (ForallOrdPairs
          (fun x a => sub (toNumber a) (toNumber x) <> NaN) xs ->
        Permutation xs ys).
Proof.
  intros Hlen. exists (quicksort (difference toNumber) xs).
  split; [apply sortAndCollapse_subtraction, Hlen|]. split.
  - apply (quicksort_sorted (difference toNumber)).
    + apply difference_anti.
    + apply difference_transitive.
  - intros Hp. apply quicksort_Permutation_pairs.
    clear - Hp. induction Hp as [|x xs Hx Hxs IH]; constructor; [|exact IH].
    apply Forall_forall. intros a Ha. rewrite Forall_forall in Hx.
    apply difference_decided, Hx, Ha.
Qed.

Lemma lazyQuicksort_sorts_comparable_witness :
  exists ys,
    sortAndCollapse 5 [Fin 2; PosInf; Fin 1; NegInf]
                    (@subtraction nat unit number (fun n => n)) 0
    = (Ret ys, 0)
    /\ StronglySorted (fun a b => le0 (sub a b) = true) ys
    /\ Permutation [Fin 2; PosInf; Fin 1; NegInf] ys.
Proof.
  destruct (@lazyQuicksort_sorts_comparable nat unit number (fun n => n)
              [Fin 2; PosInf; Fin 1; NegInf] 5 0) as (ys & H & S & P).
  - simpl. lia.
  - exists ys. split; [exact H|]. split; [exact S|]. apply P.
    repeat constructor; discriminate.
Defined.

(** Every two booleans have a difference that is a number, so an array of
    booleans is always sorted into a permutation of itself. *)
Lemma booleans_comparable (bs : list bool) :
  ForallOrdPairs (fun x a => sub (ofBool a) (ofBool x) <> NaN) bs.
Proof.
  induction bs as [|b bs IH]; constructor; [|exact IH].
  apply Forall_forall. intros a _. discriminate.
Qed.

(** An array holding one infinity of each sign. *)
Example sorts_with_infinities :
  sortAndCollapse 5 [Fin 2; PosInf; Fin 1; NegInf]
                  (@subtraction nat unit number (fun n => n)) 0
  = (Ret [NegInf; Fin 1; Fin 2; PosInf], 0).
Proof. reflexivity. Qed.
